(** * rateratio_test: p_adjust.py and rateratio.py

    A shallow embedding of the two modules of the repository,

      - [p_adjust.py]  ([p_adjust]: Bonferroni / Benjamini-Hochberg
        adjustment of p-values), and
      - [rateratio.py] ([p_L], [p_U], [test]: exact rate ratio test),

    and the properties of them that the specification states.

    Conventions of the embedding.

    - The code is Python 2 ([xrange] at p_adjust.py:124), so [None > 0]
      is [False] and the default [n=None] takes the [else] branch of
      p_adjust.py:86-89.
    - Python floats and numpy float64 values are idealised as exact
      rationals ([Q], compared with [==]); results that numpy can make
      infinite are in [xfloat].
    - Exceptions are values: every function returns a [result].
    - Functions of numpy are modelled by what they compute on the flat
      data ([np_array], [ravel], [reshape], [argsort]); functions of scipy
      that have no closed form ([interpolate.splrep], [interpolate.splev],
      [beta.ppf]) are section variables; [binom.cdf] is the exact binomial
      distribution function. *)

From Stdlib Require Import QArith Qminmax Qfield Lia Lqa ZArith List String Ascii Bool.
From Stdlib Require Import Sorting.Sorted Sorting.Permutation.
From stdpp Require Import base list.
Import ListNotations.

Local Open Scope Q_scope.
Local Open Scope string_scope.

(** ** Python values and exceptions *)

Inductive exn : Type :=
| AssertionError (msg : string)
| NameError (name : string)
| ZeroDivisionError
| IndexError
| ValueError.

Inductive result (A : Type) : Type :=
| Ok (a : A)
| Raise (e : exn).
Arguments Ok {A} a.
Arguments Raise {A} e.

#[global] Instance result_bind : MBind result := fun A B f m =>
  match m with
  | Ok a => f a
  | Raise e => Raise e
  end.

(** [assert(cond), msg] *)
Definition py_assert (cond : bool) (msg : string) : result unit :=
  if cond then Ok tt else Raise (AssertionError msg).

Definition Qltb (a b : Q) : bool := negb (Qle_bool b a).

(** [a / b] on Python numbers: a zero divisor raises. *)
Definition py_div (a b : Q) : result Q :=
  if Qeq_bool b 0 then Raise ZeroDivisionError else Ok (a / b).

(** [min(a, b)] keeps its first argument unless the second is smaller. *)
Definition py_min (a b : Q) : Q := if Qltb b a then b else a.

(** [n > 0] where [n] may be [None]: in Python 2 [None] is smaller than
    every number. *)
Definition py_gt0 (n : option Q) : bool :=
  match n with
  | Some q => Qltb 0 q
  | None => false
  end.

(** An index as Python reads it: a negative one counts from the end. *)
Definition norm_index (len : nat) (i : Z) : option nat :=
  let j := if (i <? 0)%Z then (i + Z.of_nat len)%Z else i in
  if ((0 <=? j) && (j <? Z.of_nat len))%Z then Some (Z.to_nat j) else None.

(** [a[i]] *)
Definition getitem {A : Type} (a : list A) (i : Z) : result A :=
  match norm_index (length a) i with
  | Some j => match a !! j with
              | Some v => Ok v
              | None => Raise IndexError
              end
  | None => Raise IndexError
  end.

(** [a[i] = v] *)
Definition setitem {A : Type} (a : list A) (i : Z) (v : A) : result (list A) :=
  match norm_index (length a) i with
  | Some j => Ok (<[j := v]> a)
  | None => Raise IndexError
  end.

(** [str.lower()] on ASCII text. *)
Definition lower_ascii (c : ascii) : ascii :=
  let n := nat_of_ascii c in
  if ((65 <=? n) && (n <=? 90))%nat then ascii_of_nat (n + 32) else c.

Fixpoint lower (s : string) : string :=
  match s with
  | EmptyString => EmptyString
  | String c s' => String (lower_ascii c) (lower s')
  end.

(** [sep.join(l)] *)
Fixpoint join (sep : string) (l : list string) : string :=
  match l with
  | [] => ""
  | [s] => s
  | s :: l' => s ++ sep ++ join sep l'
  end.

(** [s in l] *)
Definition str_in (s : string) (l : list string) : bool :=
  existsb (String.eqb s) l.

(** ** numpy arrays *)

Record ndarray : Type := { shape : list nat; data : list Q }.

(** The number of elements a shape holds. *)
Definition size_of (s : list nat) : nat := fold_right Nat.mul 1%nat s.

(** An array is well formed when its flat data fill its shape. *)
Definition wf_array (a : ndarray) : Prop := length (data a) = size_of (shape a).

(** [np.array(l)] of a flat list. *)
Definition np_array (l : list Q) : ndarray := {| shape := [length l]; data := l |}.

(** [a.ravel()]: the data, in row-major order, as the model stores them. *)
Definition ravel (a : ndarray) : list Q := data a.

(** [a.reshape(s)]: numpy refuses a shape of another size. *)
Definition reshape (d : list Q) (s : list nat) : result ndarray :=
  if (length d =? size_of s)%nat then Ok {| shape := s; data := d |}
  else Raise ValueError.

(** [np.argsort(p)]: the indices that sort [p]; among equal keys the
    model keeps the original order. *)
Fixpoint insert_by (key : nat -> Q) (i : nat) (l : list nat) : list nat :=
  match l with
  | [] => [i]
  | j :: l' => if Qle_bool (key i) (key j) then i :: j :: l'
               else j :: insert_by key i l'
  end.

Definition argsort (p : list Q) : list nat :=
  fold_right (insert_by (fun i => nth i p 0)) [] (seq 0 (length p)).

(** [p[idx]] with an index array; the indices of [p_adjust] come from
    [argsort] and are in range. *)
Definition take (p : list Q) (idx : list nat) : list Q :=
  map (fun i => nth i p 0) idx.

(** [qv[idx] = vals] with an index array, in range as above. *)
Definition put (qv : list Q) (idx : list nat) (vals : list Q) : list Q :=
  fold_left (fun acc iv => <[fst iv := snd iv]> acc) (combine idx vals) qv.

(** [np.arange(0, 0.90, 0.01)]: 0.00, 0.01, ..., 0.89. *)
Definition arange_lambda : list Q :=
  map (fun i => inject_Z (Z.of_nat i) / 100) (seq 0 90).

(** [xrange(start, -1, -1)]: start, start-1, ..., 0. *)
Definition xrange_down (start : Z) : list Z :=
  map Z.of_nat (rev (seq 0 (Z.to_nat (start + 1)))).

(** ** p_adjust.py *)

Module PAdjust.

(** The names the module binds at top level (p_adjust.py:2, 56, 57, 59,
    63); the number a name is bound to, when it is one. *)
Definition module_globals : list (string * option Q) :=
  [("docstring", None); ("np", None); ("interpolate", None);
   ("p_adjust_methods", None); ("p_adjust", None)].

(** Reading a global name that is not a local of the function. *)
Definition global (name : string) : result (option Q) :=
  match List.find (fun b => String.eqb (fst b) name) module_globals with
  | Some b => Ok (snd b)
  | None => Raise (NameError name)
  end.

(** Using the value of a global as a number. *)
Definition global_number (name : string) : result Q :=
  v ← global name;
  match v with
  | Some q => Ok q
  | None => Raise ValueError
  end.

Definition p_adjust_methods : list string := ["fdr"; "bonferroni"; "none"].

(** What [p_adjust] is given: a Python list or a numpy array. *)
Inductive pvalues : Type :=
| PyList (l : list Q)
| NdArray (a : ndarray).

(** The shape of the argument as numpy sees it. *)
Definition shape_of (p : pvalues) : list nat :=
  match p with
  | PyList l => [length l]
  | NdArray a => shape a
  end.

Definition values_of (p : pvalues) : list Q :=
  match p with
  | PyList l => l
  | NdArray a => data a
  end.

Definition wf_pvalues (p : pvalues) : Prop :=
  match p with
  | PyList _ => True
  | NdArray a => wf_array a
  end.

(** A line printed on standard output (p_adjust.py:117). *)
Inductive printed : Type :=
| Warning_pi0 (pi0 : Q).

(** What a call leaves behind: the value returned and what was printed. *)
Record returned : Type := { value : ndarray; stdout : list printed }.

Section Scipy.

(** [interpolate.splrep(x, y, k)] and [interpolate.splev(x, tck)]. *)
Variable tck : Type.
Variable splrep : list Q -> list Q -> nat -> tck.
Variable splev : Q -> tck -> Q.

(** p_adjust.py:101-115, the estimate of pi0 for 100 p-values or more. *)
Definition estimate_pi0 (p : list Q) : result Q :=
  let lam := arange_lambda in
  _ ← global "sp";
  let counts := map (fun i => length (filter (fun x => Qltb i x) p)) arange_lambda in
  m ← global_number "m";
  let pi0 :=
    map (fun l => inject_Z (Z.of_nat (nth l counts 0%nat)) / (m * (1 - nth l lam 0)))
        (seq 0 (length lam)) in
  let t := splrep lam pi0 3%nat in
  last ← getitem lam (-1);
  let pi0 := splev last t in
  Ok (if Qltb 1 pi0 then 1 else pi0).

(** p_adjust.py:124-125, one turn of the loop. *)
Definition bh_step (pi0 n : Q) (p : list Q) (qv : result (list Q)) (i : Z)
  : result (list Q) :=
  qv ← qv;
  pi ← getitem p i;
  next ← getitem qv (i + 1);
  setitem qv i (py_min (pi0 * n * pi / (inject_Z i + 1)) next).

(** p_adjust.py:63-134. *)
Definition p_adjust (p : pvalues) (method : string) (n : option Q)
  : result returned :=
  let method := lower method in
  let method := if String.eqb method "bh" then "fdr" else method in
  _ ← py_assert (str_in method p_adjust_methods)
        ("ERROR! method must be one of " ++ join "," p_adjust_methods);
  let p := match p with
           | PyList l => np_array l
           | NdArray a => a
           end in
  if String.eqb method "none" then Ok {| value := p; stdout := [] |} else
  let original_shape := shape p in
  let p := ravel p in
  let n := if py_gt0 n then default 0 n * 1
           else 1 * inject_Z (Z.of_nat (length p)) in
  if String.eqb method "bonferroni" then
    let qv := map (fun x => n * x) p in
    let qv := map (fun v => if Qltb 1 v then 1 else v) qv in
    qv ← reshape qv original_shape;
    Ok {| value := qv; stdout := [] |}
  else
  pi0 ← (if (length p <? 100)%nat then Ok 1 else estimate_pi0 p);
  let out := if Qltb pi0 0 then [Warning_pi0 pi0] else [] in
  let p_ordered := argsort p in
  let p := take p p_ordered in
  c ← py_div (pi0 * n) (inject_Z (Z.of_nat (length p)));
  let qv := map (fun x => c * x) p in
  last ← getitem qv (-1);
  qv ← setitem qv (-1) (py_min last 1);
  qv ← fold_left (bh_step pi0 n p) (xrange_down (Z.of_nat (length p) - 2)) (Ok qv);
  let qv_temp := qv in
  let qv := repeat 0 (length qv) in
  let qv := put qv p_ordered qv_temp in
  qv ← reshape qv original_shape;
  Ok {| value := qv; stdout := out |}.

End Scipy.

(** The array [p_adjust] works on (p_adjust.py:77-78). *)
Definition as_array (p : pvalues) : ndarray :=
  match p with
  | PyList l => np_array l
  | NdArray a => a
  end.

(** The count it multiplies with (p_adjust.py:86-89), for [len] values. *)
Definition count_used (n : option Q) (len : nat) : Q :=
  if py_gt0 n then default 0 n * 1 else 1 * inject_Z (Z.of_nat len).

(** The count as the specification words it: [n], or the number of
    p-values when [n] is not supplied or not above 0. *)
Definition comparisons (n : option Q) (len : nat) : Q :=
  match n with
  | Some v => if Qle_bool v 0 then inject_Z (Z.of_nat len) else v
  | None => inject_Z (Z.of_nat len)
  end.

(** The method a spelling stands for (p_adjust.py:71-73). *)
Definition canonical (method : string) : string :=
  if String.eqb (lower method) "bh" then "fdr" else lower method.

End PAdjust.

(** ** rateratio.py *)

Module RateRatio.

(** A numpy float64 that may have left the finite range. *)
Inductive xfloat : Type :=
| Fin (q : Q)
| PosInf
| NegInf
| NaN.

(** What [p_L] and [p_U] return: the Python integers 0 and 1 of their
    first branch, or the numpy float64 of [qbeta]. *)
Inductive pnum : Type :=
| PyInt (z : Z)
| NpFloat (q : Q).

(** [a / b] on numpy float64 scalars: a zero divisor gives an infinity or
    nan (and a RuntimeWarning), not an exception. *)
Definition np_div (a b : Q) : xfloat :=
  if Qeq_bool b 0 then
    if Qltb 0 a then PosInf else if Qltb a 0 then NegInf else NaN
  else Fin (a / b).

(** [min(l)] on a list: empty lists are refused. *)
Definition list_min {A : Type} (ltb : A -> A -> bool) (l : list A) : result A :=
  match l with
  | [] => Raise ValueError
  | a :: l' => Ok (fold_left (fun m b => if ltb b m then b else m) l' a)
  end.

(** *** scipy.stats.binom.cdf *)

(** Binomial coefficients, by Pascal's rule. *)
Fixpoint comb (n k : nat) : nat :=
  match n, k with
  | _, O => 1
  | O, S _ => 0
  | S n', S k' => comb n' k' + comb n' (S k')
  end.

Fixpoint qpow (q : Q) (e : nat) : Q :=
  match e with
  | O => 1
  | S e' => q * qpow q e'
  end.

(** The sum of f 0, ..., f k. *)
Fixpoint sum_upto (f : nat -> Q) (k : nat) : Q :=
  match k with
  | O => f O
  | S k' => sum_upto f k' + f k
  end.

(** The sum of f 0, ..., f (a-1). *)
Definition sum_below (f : nat -> Q) (a : nat) : Q :=
  match a with
  | O => 0
  | S a' => sum_upto f a'
  end.

(** The probability of [i] successes in [n] trials. *)
Definition dbinom (i n : nat) (p : Q) : Q :=
  inject_Z (Z.of_nat (comb n i)) * qpow p i * qpow (1 - p) (n - i).

(** [binom.cdf(k, n, p)]: the probability of at most [k] successes. *)
Definition pbinom (k n : Z) (p : Q) : Q :=
  if (k <? 0)%Z then 0
  else sum_upto (fun i => dbinom i (Z.to_nat n) p) (Z.to_nat (Z.min k n)).

(** *** class htest *)

Definition dquote : string := String (ascii_of_nat 34) EmptyString.
Definition newline : string := String (ascii_of_nat 10) EmptyString.

Record htest : Type := {
  p_value : Q;
  estimate : list Q;
  null_value : Q;
  conf_int : list xfloat;
  alternative : string;
  method : string;
  (** the arguments of the format of rateratio.py:73 *)
  data_name : list Z * list Q * Q
}.

(** rateratio.py:66-74 *)
Definition htest_init (x : list Z) (n : list Q) (RR : Q) (alternative : string)
  : htest :=
  {| p_value := 0;
     estimate := [];
     null_value := RR;
     conf_int := [];
     alternative := alternative;
     method := "Exact Rate Ratio Test, assuming Poisson counts";
     data_name := (x, n, RR) |}.

Definition set_p_value (r : htest) (v : Q) : htest :=
  {| p_value := v; estimate := estimate r; null_value := null_value r;
     conf_int := conf_int r; alternative := alternative r;
     method := method r; data_name := data_name r |}.

Definition set_estimate (r : htest) (v : list Q) : htest :=
  {| p_value := p_value r; estimate := v; null_value := null_value r;
     conf_int := conf_int r; alternative := alternative r;
     method := method r; data_name := data_name r |}.

Definition set_conf_int (r : htest) (v : list xfloat) : htest :=
  {| p_value := p_value r; estimate := estimate r; null_value := null_value r;
     conf_int := v; alternative := alternative r;
     method := method r; data_name := data_name r |}.

(** *** The specification's words *)

(** T(q) = (q * n1) / (n0 * (1 - q)), a proportion bound on the rate
    ratio scale. *)
Definition rate_transform (q n0 n1 : Q) : xfloat :=
  np_div (q * n1) (n0 * (1 - q)).

(** Equality of bounds, up to the equality of rationals. *)
Definition xfloat_eq (a b : xfloat) : Prop :=
  match a, b with
  | Fin p, Fin q => p == q
  | PosInf, PosInf => True
  | NegInf, NegInf => True
  | NaN, NaN => True
  | _, _ => False
  end.

Definition alternatives : list string := ["two.sided"; "less"; "greater"].

(** The null proportion and the p-value of each alternative. *)
Definition null_proportion (n0 n1 RR : Q) : Q := n0 * RR / (n0 * RR + n1).

Definition spec_p_value (x0 x1 : Z) (n0 n1 RR : Q) (alt : string) : Q :=
  let p := null_proportion n0 n1 RR in
  let pval_less := pbinom x0 (x0 + x1) p in
  let pval_greater := 1 - pbinom (x0 - 1) (x0 + x1) p in
  if String.eqb alt "less" then pval_less
  else if String.eqb alt "greater" then pval_greater
  else Qmin 1 (2 * Qmin pval_less pval_greater).

(** The p-value [test] computes (rateratio.py:157-170), by alternative. *)
Definition computed_p_value (x0 x1 : Z) (n0 n1 RR : Q) (alt : string) : Q :=
  let pRR := 1 * n0 * RR / (n0 * RR + n1) in
  let pval_less := pbinom x0 (x1 + x0) pRR in
  let pval_greater := 1 - pbinom (x0 - 1) (x0 + x1) pRR in
  if String.eqb alt "less" then pval_less
  else if String.eqb alt "greater" then pval_greater
  else py_min 1 (2 * py_min pval_less pval_greater).

(** The preconditions of [test]. *)
Inductive constraint : Type :=
| Length_x
| Length_n
| Positive_exposure
| Nonnegative_count
| Positive_RR
| Known_alternative
| Conf_level_range.

(** rateratio.py:137-142 *)
Definition match_arg (alternative : string) : string :=
  if String.eqb alternative "t" || String.eqb alternative "two_sided"
  then "two.sided"
  else if String.eqb alternative "g" then "greater"
  else if String.eqb alternative "l" then "less"
  else alternative.

Definition alternative_message : string :=
  "Error in match.arg(alternative) : " ++ newline ++
  "  'arg' should be one of " ++ dquote ++ "two.sided" ++ dquote ++ ", " ++
  dquote ++ "less" ++ dquote ++ ", " ++ dquote ++ "greater" ++ dquote.

Section Scipy.

(** [scipy.stats.beta.ppf(q, a, b)], the quantile function of the Beta
    distribution; the shape parameters it is given here are integers. *)
Variable qbeta : Q -> Z -> Z -> Q.

(** rateratio.py:106-109 *)
Definition p_L (x n : Z) (alpha : Q) : pnum :=
  if (x =? 0)%Z then PyInt 0
  else NpFloat (qbeta alpha x (n - x + 1)).

(** rateratio.py:111-114 *)
Definition p_U (x n : Z) (alpha : Q) : pnum :=
  if (x =? n)%Z then PyInt 1
  else NpFloat (qbeta (1 - alpha) (x + 1) (n - x)).

(** The expression [(q*M)/(N*(1-q))] of rateratio.py:164, 168, 172, 173,
    where [q] is a value of [p_L] or [p_U]. *)
Definition rate_bound (q : pnum) (N M : Q) : result xfloat :=
  match q with
  | PyInt z => v ← py_div (inject_Z z * M) (N * (1 - inject_Z z)); Ok (Fin v)
  | NpFloat v => Ok (np_div (v * M) (N * (1 - v)))
  end.

(** rateratio.py:116-176 *)
Definition test (x : list Z) (n : list Q) (RR : Q) (alternative : string)
    (conf_level : Q) : result htest :=
  let k := length x in
  _ ← py_assert (k =? 2)%nat "x must have a length 2";
  _ ← py_assert (k =? length n)%nat "'x' and 'n' must have the same length";
  min_n ← list_min Qltb n;
  _ ← py_assert (Qltb 0 min_n) "elements of 'n' must be positive";
  min_x ← list_min Z.ltb x;
  _ ← py_assert (0 <=? min_x)%Z "elements of 'x' must be nonnegative";
  _ ← py_assert (Qltb 0 RR) "RR must be greater than 0";
  let alternative := match_arg alternative in
  _ ← py_assert (str_in alternative ["two.sided"; "less"; "greater"])
        alternative_message;
  _ ← py_assert (Qltb 0 conf_level && Qltb conf_level 1)
        "'conf.level' must be a single number between 0 and 1";
  let RVAL := htest_init x n RR alternative in
  Y ← getitem x 0;
  N ← getitem n 0;
  X ← getitem x 1;
  M ← getitem n 1;
  rate1 ← py_div (1 * inject_Z Y) N;
  rate2 ← py_div (1 * inject_Z X) M;
  ratio ← py_div rate1 rate2;
  let RVAL := set_estimate RVAL [ratio; rate1; rate2] in
  pRR ← py_div (1 * N * RR) (N * RR + M);
  let pval_less := pbinom Y (X + Y) pRR in
  let pval_greater := 1 - pbinom (Y - 1) (Y + X) pRR in
  RVAL ←
    (if String.eqb alternative "less" then
       let RVAL := set_p_value RVAL pval_less in
       hi ← rate_bound (p_U Y (X + Y) (1 - conf_level)) N M;
       Ok (set_conf_int RVAL [Fin 0; hi])
     else if String.eqb alternative "greater" then
       let RVAL := set_p_value RVAL pval_greater in
       lo ← rate_bound (p_L Y (X + Y) (1 - conf_level)) N M;
       Ok (set_conf_int RVAL [lo; PosInf])
     else if String.eqb alternative "two.sided" then
       let RVAL := set_p_value RVAL (py_min 1 (2 * py_min pval_less pval_greater)) in
       lo ← rate_bound (p_L Y (X + Y) ((1 - conf_level) / 2)) N M;
       hi ← rate_bound (p_U Y (X + Y) ((1 - conf_level) / 2)) N M;
       Ok (set_conf_int RVAL [lo; hi])
     else Ok RVAL);
  Ok (set_conf_int RVAL (conf_int RVAL ++ [Fin conf_level])).

(** *** The specification's confidence bounds *)

(** The lower-bound proportion for count [x] out of [N] trials at tail
    [a]: 0 if x = 0, else the a-quantile of Beta(x, N-x+1). *)
Definition lower_proportion (x N : Z) (a : Q) : Q :=
  if (x =? 0)%Z then 0 else qbeta a x (N - x + 1).

(** The upper-bound proportion: 1 if x = N, else the (1-a)-quantile of
    Beta(x+1, N-x). *)
Definition upper_proportion (x N : Z) (a : Q) : Q :=
  if (x =? N)%Z then 1 else qbeta (1 - a) (x + 1) (N - x).

(** The interval [test] computes, by alternative. *)
Definition computed_interval (x0 x1 : Z) (n0 n1 : Q) (alt : string) (c : Q)
  : list xfloat :=
  let N := (x0 + x1)%Z in
  if String.eqb alt "less" then
    [Fin 0; rate_transform (upper_proportion x0 N (1 - c)) n0 n1]
  else if String.eqb alt "greater" then
    [rate_transform (lower_proportion x0 N (1 - c)) n0 n1; PosInf]
  else
    [rate_transform (lower_proportion x0 N ((1 - c) / 2)) n0 n1;
     rate_transform (upper_proportion x0 N ((1 - c) / 2)) n0 n1].

(** The interval as the specification words it: the lower-bound
    proportion under "less", the upper-bound proportion under "greater". *)
Definition spec_interval (x0 x1 : Z) (n0 n1 : Q) (alt : string) (c : Q)
  : list xfloat :=
  let N := (x0 + x1)%Z in
  if String.eqb alt "less" then
    [Fin 0; rate_transform (lower_proportion x0 N (1 - c)) n0 n1]
  else if String.eqb alt "greater" then
    [rate_transform (upper_proportion x0 N (1 - c)) n0 n1; PosInf]
  else
    [rate_transform (lower_proportion x0 N ((1 - c) / 2)) n0 n1;
     rate_transform (upper_proportion x0 N ((1 - c) / 2)) n0 n1].

End Scipy.

(** The message of the assertion that checks a precondition
    (rateratio.py:130-148). *)
Definition message (k : constraint) : string :=
  match k with
  | Length_x => "x must have a length 2"
  | Length_n => "'x' and 'n' must have the same length"
  | Positive_exposure => "elements of 'n' must be positive"
  | Nonnegative_count => "elements of 'x' must be nonnegative"
  | Positive_RR => "RR must be greater than 0"
  | Known_alternative => alternative_message
  | Conf_level_range => "'conf.level' must be a single number between 0 and 1"
  end.

(** What a precondition asks of the arguments. *)
Definition satisfied (k : constraint) (x : list Z) (n : list Q) (RR : Q)
    (alt : string) (c : Q) : Prop :=
  match k with
  | Length_x => length x = 2%nat
  | Length_n => length n = length x
  | Positive_exposure => Forall (fun e => 0 < e) n
  | Nonnegative_count => Forall (fun e => (0 <= e)%Z) x
  | Positive_RR => 0 < RR
  | Known_alternative => In (match_arg alt) alternatives
  | Conf_level_range => 0 < c < 1
  end.

(** An invalid argument, as the specification lists them. *)
Definition invalid_args (x : list Z) (n : list Q) (RR : Q) (alt : string)
    (c : Q) : Prop :=
  length x <> 2%nat \/ length n <> 2%nat \/
  Exists (fun e => e <= 0) n \/ Exists (fun e => (e < 0)%Z) x \/
  RR <= 0 \/ ~ In (match_arg alt) alternatives \/ c <= 0 \/ 1 <= c.

(** Valid arguments, for counts [x0], [x1] and exposures [n0], [n1]. *)
Definition valid_args (x0 x1 : Z) (n0 n1 RR : Q) (alt : string) (c : Q) : Prop :=
  (0 <= x0)%Z /\ (0 <= x1)%Z /\ 0 < n0 /\ 0 < n1 /\ 0 < RR /\
  In (match_arg alt) alternatives /\ 0 < c < 1.

End RateRatio.

(** ** Example inputs *)

(** Stand-ins for scipy's spline functions where a closed statement needs
    some: the calls below never reach them. *)
Definition no_splrep (x y : list Q) (k : nat) : unit := tt.
Definition no_splev (x : Q) (t : unit) : Q := 0.

(** The quantile function of Beta(1, 1), the uniform distribution on
    [0, 1]: what [beta.ppf] computes when both shapes are 1, as they are
    for the counts (0, 1). *)
Definition uniform_quantile (u : Q) (a b : Z) : Q := u.

(** One hundred p-values. *)
Definition hundred_halves : list Q := repeat 0.5 100.

(** ** htest.__repr__ *)

Section Report.

(** Python's [str] of a number, and the text that [__init__] formats from
    its arguments as [data_name] (rateratio.py:73). *)
Variable str_number : RateRatio.xfloat -> string.
Variable data_name_text : list Z * list Q * Q -> string.

Definition tab : string := String (ascii_of_nat 9) EmptyString.

(** [100 * v] on a float that may be infinite. *)
Definition times_100 (v : RateRatio.xfloat) : RateRatio.xfloat :=
  match v with
  | RateRatio.Fin q => RateRatio.Fin (100 * q)
  | other => other
  end.

(** rateratio.py:76-100 *)
Definition htest_repr (self : RateRatio.htest) : result string :=
  let null := str_number (RateRatio.Fin (RateRatio.null_value self)) in
  let hypothesis := "not equal to " ++ null in
  let hypothesis :=
    if String.eqb (RateRatio.alternative self) "greater" then "greater than " ++ null
    else if String.eqb (RateRatio.alternative self) "less" then "less than " ++ null
    else hypothesis in
  let p := str_number (RateRatio.Fin (RateRatio.p_value self)) in
  level ← getitem (RateRatio.conf_int self) (-1);
  let percent := str_number (times_100 level) in
  lo ← getitem (RateRatio.conf_int self) 0;
  hi ← getitem (RateRatio.conf_int self) 1;
  e0 ← getitem (RateRatio.estimate self) 0;
  e1 ← getitem (RateRatio.estimate self) 1;
  e2 ← getitem (RateRatio.estimate self) 2;
  Ok (RateRatio.newline ++ tab ++ RateRatio.method self ++ RateRatio.newline ++
      RateRatio.newline ++ data_name_text (RateRatio.data_name self) ++
      RateRatio.newline ++ "p-value = " ++ p ++ RateRatio.newline ++
      "alternative hypothesis: true rate ratio is " ++ hypothesis ++
      RateRatio.newline ++ percent ++ " percent confidence interval:" ++
      RateRatio.newline ++ " " ++ str_number lo ++ " " ++ str_number hi ++
      RateRatio.newline ++ "sample estimates:" ++ RateRatio.newline ++
      "  Rate Ratio       Rate 1       Rate 2" ++ RateRatio.newline ++
      str_number (RateRatio.Fin e0) ++ tab ++ str_number (RateRatio.Fin e1) ++
      tab ++ str_number (RateRatio.Fin e2) ++ RateRatio.newline).

(** rateratio.py:102-103 *)
Definition htest_str (self : RateRatio.htest) : result string := htest_repr self.

End Report.

(** Stand-ins for the formatting of numbers, where a closed statement
    needs some. *)
Definition no_str (v : RateRatio.xfloat) : string := "".
Definition no_data_name (d : list Z * list Q * Q) : string := "".

(** ** The Benjamini-Hochberg recurrence *)

(** The values of p_adjust.py:121-125 on p-values [ps] in sorted order,
    for the count [m]. *)
Definition bh_values (m : Q) (ps qs : list Q) : Prop :=
  length qs = length ps /\
  (exists pl,
     ps !! (length ps - 1)%nat = Some pl /\
     qs !! (length ps - 1)%nat =
       Some (py_min (1 * m / inject_Z (Z.of_nat (length ps)) * pl) 1)) /\
  (forall k, (S k < length ps)%nat ->
     exists pk nx,
       ps !! k = Some pk /\ qs !! S k = Some nx /\
       qs !! k = Some (py_min (1 * m * pk / (inject_Z (Z.of_nat k) + 1)) nx)).

(** Three p-values, two of them equal. *)
Definition example_ties : list Q := [0.2; 0.03; 0.2].

(** ** Tactics *)

Ltac reduce_bool t :=
  let v := eval vm_compute in t in
  match v with
  | true => change t with true
  | false => change t with false
  end.

Ltac run_strings :=
  repeat match goal with
  | |- context [lower ?s] =>
      let v := eval vm_compute in (lower s) in
      progress change (lower s) with v
  | |- context [String.eqb ?a ?b] => reduce_bool (String.eqb a b)
  | |- context [str_in ?a ?l] => reduce_bool (str_in a l)
  end.

Ltac enter_p_adjust :=
  unfold PAdjust.p_adjust; cbv zeta; run_strings;
  cbv beta iota delta [py_assert mbind result_bind]; cbv beta iota.
(** Runs the assertions of [test] on two counts and two exposures, given
    that each condition holds. *)
Ltac pass_checks En Ex ER Ea Ec :=
  unfold RateRatio.test; cbv zeta;
  cbn [length Nat.eqb py_assert mbind result_bind RateRatio.list_min fold_left];
  rewrite En, Ex, ER;
  fold RateRatio.alternatives; rewrite Ea, Ec;
  repeat match goal with
  | |- context [getitem [?a; ?b] 0] => change (getitem [a; b] 0) with (Ok a)
  | |- context [getitem [?a; ?b] 1] => change (getitem [a; b] 1) with (Ok b)
  end;
  cbn [py_assert mbind result_bind].

(** * Properties *)

(** ** The Python helpers *)

Lemma bind_Ok {A B} (a : A) (f : A -> result B) : (Ok a ≫= f) = f a.
Proof. reflexivity. Qed.

Lemma Qltb_spec a b : Qltb a b = true <-> a < b.
Proof.
  unfold Qltb. rewrite negb_true_iff. split.
  - intros H. apply Qnot_le_lt. intros Hle. apply Qle_bool_iff in Hle. congruence.
  - intros H. destruct (Qle_bool b a) eqn:E; [|reflexivity].
    apply Qle_bool_iff in E. exfalso. lra.
Qed.

Lemma Qltb_false a b : Qltb a b = false <-> b <= a.
Proof.
  unfold Qltb. rewrite negb_false_iff. apply Qle_bool_iff.
Qed.

Lemma py_div_Ok a b : ~ b == 0 -> py_div a b = Ok (a / b).
Proof.
  intros H. unfold py_div. destruct (Qeq_bool b 0) eqn:E; [|reflexivity].
  apply Qeq_bool_iff in E. contradiction.
Qed.

Lemma py_div_zero a b : b == 0 -> py_div a b = Raise ZeroDivisionError.
Proof.
  intros H. unfold py_div. apply Qeq_bool_iff in H. now rewrite H.
Qed.

Lemma norm_index_nat len i : (i < len)%nat -> norm_index len (Z.of_nat i) = Some i.
Proof.
  intros H. unfold norm_index.
  destruct (Z.ltb_spec (Z.of_nat i) 0); [lia|].
  destruct (Z.leb_spec 0 (Z.of_nat i)); [|lia].
  destruct (Z.ltb_spec (Z.of_nat i) (Z.of_nat len)); [|lia].
  cbn. now rewrite Nat2Z.id.
Qed.

Lemma norm_index_last len : (0 < len)%nat -> norm_index len (-1) = Some (len - 1)%nat.
Proof.
  intros H. unfold norm_index. cbn [Z.ltb Z.compare].
  destruct (Z.leb_spec 0 (-1 + Z.of_nat len)); [|lia].
  destruct (Z.ltb_spec (-1 + Z.of_nat len) (Z.of_nat len)); [|lia].
  cbn. f_equal. lia.
Qed.

Lemma getitem_nat {A} (a : list A) i :
  (i < length a)%nat -> exists v, a !! i = Some v /\ getitem a (Z.of_nat i) = Ok v.
Proof.
  intros H. unfold getitem. rewrite norm_index_nat by assumption.
  destruct (lookup_lt_is_Some_2 a i H) as [v Hv]. exists v. now rewrite Hv.
Qed.

Lemma getitem_last {A} (a : list A) :
  (0 < length a)%nat -> exists v, a !! (length a - 1)%nat = Some v /\ getitem a (-1) = Ok v.
Proof.
  intros H. unfold getitem. rewrite norm_index_last by assumption.
  destruct (lookup_lt_is_Some_2 a (length a - 1)%nat) as [v Hv]; [lia|].
  exists v. now rewrite Hv.
Qed.

Lemma getitem_empty {A} i : getitem (@nil A) i = Raise IndexError.
Proof.
  unfold getitem, norm_index. change (Z.of_nat (length (@nil A))) with 0%Z.
  destruct (Z.ltb_spec i 0).
  - destruct (Z.leb_spec 0 (i + 0)); [lia|reflexivity].
  - destruct (Z.leb_spec 0 i), (Z.ltb_spec i 0); try reflexivity; lia.
Qed.

Lemma setitem_nat {A} (a : list A) i v :
  (i < length a)%nat -> setitem a (Z.of_nat i) v = Ok (<[i := v]> a).
Proof.
  intros H. unfold setitem. now rewrite norm_index_nat.
Qed.

Lemma setitem_last {A} (a : list A) v :
  (0 < length a)%nat -> setitem a (-1) v = Ok (<[(length a - 1)%nat := v]> a).
Proof.
  intros H. unfold setitem. now rewrite norm_index_last.
Qed.

Lemma insert_by_length key i l : length (insert_by key i l) = S (length l).
Proof.
  induction l as [|j l IH]; cbn; [reflexivity|].
  destruct (Qle_bool (key i) (key j)); cbn; [reflexivity|]. now rewrite IH.
Qed.

Lemma insert_by_In key i l k : In k (insert_by key i l) <-> k = i \/ In k l.
Proof.
  induction l as [|j l IH]; cbn.
  - intuition.
  - destruct (Qle_bool (key i) (key j)); cbn; [intuition|]. rewrite IH. intuition.
Qed.

Lemma argsort_length p : length (argsort p) = length p.
Proof.
  unfold argsort. generalize (fun i => nth i p 0). intros key.
  transitivity (length (seq 0 (length p))); [|apply length_seq].
  induction (seq 0 (length p)) as [|i s IH]; cbn; [reflexivity|].
  now rewrite insert_by_length, IH.
Qed.

Lemma argsort_In p k : In k (argsort p) <-> (k < length p)%nat.
Proof.
  unfold argsort. generalize (fun i => nth i p 0). intros key.
  transitivity (In k (seq 0 (length p))).
  - induction (seq 0 (length p)) as [|i s IH]; cbn; [reflexivity|].
    rewrite insert_by_In, IH. intuition.
  - rewrite in_seq. lia.
Qed.

(** The model of [np.argsort] returns the indices of [p], each once,
    in the order of their keys. *)
Lemma insert_by_perm key i l : Permutation (insert_by key i l) (i :: l).
Proof.
  induction l as [|j l IH]; cbn; [reflexivity|].
  destruct (Qle_bool (key i) (key j)); [reflexivity|].
  rewrite IH. apply perm_swap.
Qed.

Lemma argsort_perm p : Permutation (argsort p) (seq 0 (length p)).
Proof.
  unfold argsort. induction (seq 0 (length p)) as [|i s IH]; cbn; [reflexivity|].
  rewrite insert_by_perm. now constructor.
Qed.

Lemma insert_by_sorted key i l :
  Sorted (fun a b => key a <= key b) l ->
  Sorted (fun a b => key a <= key b) (insert_by key i l).
Proof.
  induction l as [|j l IH]; intros Hs; cbn.
  - repeat constructor.
  - destruct (Qle_bool (key i) (key j)) eqn:E.
    + apply Qle_bool_iff in E. constructor; [assumption|now constructor].
    + assert (key j <= key i) as Hji.
      { apply Qlt_le_weak, Qnot_le_lt. intros H. apply Qle_bool_iff in H. congruence. }
      inversion Hs as [|? ? Hs' Hhd]; subst. constructor; [now apply IH|].
      destruct l as [|k l]; cbn.
      * now constructor.
      * destruct (Qle_bool (key i) (key k)); constructor; [assumption|].
        now inversion Hhd.
Qed.

Lemma argsort_sorted p :
  Sorted (fun a b => nth a p 0 <= nth b p 0) (argsort p).
Proof.
  unfold argsort. induction (seq 0 (length p)) as [|i s IH]; cbn; [constructor|].
  now apply insert_by_sorted.
Qed.

Lemma take_length p idx : length (take p idx) = length idx.
Proof. apply length_map. Qed.

Lemma put_length qv idx vals : length (put qv idx vals) = length qv.
Proof.
  unfold put. revert qv.
  induction (combine idx vals) as [|iv l IH]; intros qv; cbn; [reflexivity|].
  now rewrite IH, length_insert.
Qed.
Lemma str_in_In a l : str_in a l = true <-> In a l.
Proof.
  unfold str_in. rewrite existsb_exists. split.
  - intros [b [Hb E]]. apply String.eqb_eq in E. now subst.
  - intros H. exists a. split; [assumption|apply String.eqb_refl].
Qed.

Lemma inject_Z_nat_nonzero k : (0 < k)%nat -> ~ inject_Z (Z.of_nat k) == 0.
Proof. intros H E. unfold Qeq in E. cbn in E. lia. Qed.

Lemma py_min_Qmin a b : py_min a b == Qmin a b.
Proof.
  unfold py_min. destruct (Qltb b a) eqn:E.
  - apply Qltb_spec in E. symmetry. apply Q.min_r. lra.
  - apply Qltb_false in E. symmetry. now apply Q.min_l.
Qed.


(** ** p_adjust *)

Section PAdjustFacts.
Import PAdjust.
Variable tck : Type.
Variable splrep : list Q -> list Q -> nat -> tck.
Variable splev : Q -> tck -> Q.
Local Abbreviation p_adjust := (PAdjust.p_adjust tck splrep splev).

Lemma xrange_down_spec len :
  Forall (fun i => exists k, i = Z.of_nat k /\ (S k < len)%nat)
         (xrange_down (Z.of_nat len - 2)).
Proof.
  unfold xrange_down. apply List.Forall_forall. intros i Hi.
  apply in_map_iff in Hi as [k [<- Hk]]. apply in_rev, in_seq in Hk.
  exists k. split; [reflexivity|lia].
Qed.

Lemma bh_loop_Ok pi0 n p idx : forall qv,
  length qv = length p ->
  Forall (fun i => exists k, i = Z.of_nat k /\ (S k < length p)%nat) idx ->
  exists qv', fold_left (bh_step pi0 n p) idx (Ok qv) = Ok qv' /\ length qv' = length p.
Proof.
  induction idx as [|i idx IH]; intros qv Hlen Hidx; cbn [fold_left].
  - now exists qv.
  - inversion Hidx as [|? ? [k [-> Hk]] Hrest]; subst.
    destruct (getitem_nat p k) as [pk [_ Hpk]]; [lia|].
    destruct (getitem_nat qv (S k)) as [nx [_ Hnx]]; [lia|].
    unfold bh_step at 2. rewrite bind_Ok, Hpk, bind_Ok.
    replace (Z.of_nat k + 1)%Z with (Z.of_nat (S k)) by lia.
    rewrite Hnx, bind_Ok, setitem_nat by lia.
    apply IH; [now rewrite length_insert|assumption].
Qed.

Lemma as_array_shape p : shape (as_array p) = shape_of p.
Proof. now destruct p. Qed.

Lemma as_array_data p : data (as_array p) = values_of p.
Proof. now destruct p. Qed.

Lemma reshape_wf p d :
  wf_pvalues p -> length d = length (values_of p) ->
  reshape d (shape_of p) = Ok {| shape := shape_of p; data := d |}.
Proof.
  intros Hwf Hlen. unfold reshape.
  replace (length d =? size_of (shape_of p))%nat with true; [reflexivity|].
  symmetry. apply Nat.eqb_eq. rewrite Hlen.
  destruct p as [l|a]; cbn in *; [lia|exact Hwf].
Qed.

Lemma p_adjust_none p n :
  p_adjust p "none" n = Ok {| value := as_array p; stdout := [] |}.
Proof. enter_p_adjust. reflexivity. Qed.

Lemma p_adjust_bonferroni p n :
  wf_pvalues p ->
  p_adjust p "bonferroni" n =
  Ok {| value :=
          {| shape := shape_of p;
             data := map (fun x => let v := count_used n (length (values_of p)) * x in
                                   if Qltb 1 v then 1 else v) (values_of p) |};
        stdout := [] |}.
Proof.
  intros Hwf. enter_p_adjust. fold (as_array p). unfold ravel.
  rewrite as_array_shape, as_array_data, map_map.
  fold (count_used n (length (values_of p))).
  rewrite reshape_wf; [reflexivity|assumption|now rewrite length_map].
Qed.

Lemma p_adjust_fdr_large p n :
  (100 <= length (values_of p))%nat ->
  p_adjust p "fdr" n = Raise (NameError "sp").
Proof.
  intros Hlen. enter_p_adjust. fold (as_array p). unfold ravel.
  rewrite as_array_data.
  destruct (Nat.ltb_spec (length (values_of p)) 100); [lia|].
  reflexivity.
Qed.

Lemma p_adjust_fdr_empty p n :
  values_of p = [] -> p_adjust p "fdr" n = Raise ZeroDivisionError.
Proof.
  intros Hnil. enter_p_adjust. fold (as_array p). unfold ravel.
  rewrite as_array_data, Hnil. reflexivity.
Qed.

Lemma p_adjust_fdr_small p n :
  wf_pvalues p -> (0 < length (values_of p) < 100)%nat ->
  exists q, p_adjust p "fdr" n =
            Ok {| value := {| shape := shape_of p; data := q |}; stdout := [] |}
            /\ length q = length (values_of p).
Proof.
  intros Hwf [Hpos Hlt]. enter_p_adjust. fold (as_array p). unfold ravel.
  rewrite as_array_shape, as_array_data.
  set (d := values_of p) in *.
  fold (count_used n (length d)). set (m := count_used n (length d)).
  destruct (Nat.ltb_spec (length d) 100); [|lia].
  change (Qltb 1 0) with false. cbv iota.
  set (ps := take d (argsort d)).
  assert (Hps : length ps = length d) by (unfold ps; now rewrite take_length, argsort_length).
  rewrite py_div_Ok.
  2:{ rewrite Hps. now apply inject_Z_nat_nonzero. }
  set (c := 1 * m / inject_Z (Z.of_nat (length ps))).
  set (qv := map (fun x => c * x) ps).
  assert (Hqv : length qv = length d) by (unfold qv; now rewrite length_map).
  destruct (getitem_last qv) as [lastv [_ ->]]; [lia|].
  rewrite setitem_last by lia.
  destruct (bh_loop_Ok 1 m ps (xrange_down (Z.of_nat (length ps) - 2))
              (<[(length qv - 1)%nat := py_min lastv 1]> qv)) as [qv' [-> Hqv']].
  { now rewrite length_insert, Hqv, Hps. }
  { apply xrange_down_spec. }
  rewrite reshape_wf; [|assumption|].
  - eexists. split; [reflexivity|]. now rewrite put_length, repeat_length, Hqv', Hps.
  - now rewrite put_length, repeat_length, Hqv', Hps.
Qed.

Lemma p_adjust_canonical p m1 m2 n :
  canonical m1 = canonical m2 -> p_adjust p m1 n = p_adjust p m2 n.
Proof.
  intros H. unfold PAdjust.p_adjust. cbv zeta.
  fold (canonical m1). fold (canonical m2). now rewrite H.
Qed.

Lemma p_adjust_unknown p method n :
  str_in (canonical method) p_adjust_methods = false ->
  p_adjust p method n =
  Raise (AssertionError "ERROR! method must be one of fdr,bonferroni,none").
Proof.
  intros H. unfold PAdjust.p_adjust. cbv zeta. fold (canonical method).
  rewrite H. reflexivity.
Qed.

Lemma p_adjust_known p method n :
  str_in (canonical method) p_adjust_methods = true ->
  p_adjust p method n = p_adjust p "fdr" n \/
  p_adjust p method n = p_adjust p "bonferroni" n \/
  p_adjust p method n = p_adjust p "none" n.
Proof.
  unfold str_in, p_adjust_methods. cbn [existsb]. rewrite !orb_true_iff.
  intros [H|[H|[H|H]]]; [| | |discriminate]; apply String.eqb_eq in H.
  - left. now apply p_adjust_canonical.
  - right; left. now apply p_adjust_canonical.
  - right; right. now apply p_adjust_canonical.
Qed.

Lemma p_adjust_rejects p method n :
  ~ In (lower method) ["fdr"; "bh"; "bonferroni"; "none"] ->
  p_adjust p method n =
  Raise (AssertionError "ERROR! method must be one of fdr,bonferroni,none").
Proof.
  intros H. apply p_adjust_unknown. unfold canonical.
  destruct (String.eqb_spec (lower method) "bh") as [E|E].
  - exfalso. apply H. rewrite E. right; now left.
  - destruct (str_in (lower method) p_adjust_methods) eqn:Es; [|reflexivity].
    exfalso. apply H. apply str_in_In in Es.
    destruct Es as [<-|[<-|[<-|[]]]]; cbn; tauto.
Qed.

Lemma Forall2_map_self {A B} (R : A -> B -> Prop) (f : A -> B) l :
  (forall x, In x l -> R x (f x)) -> Forall2 R l (map f l).
Proof.
  induction l as [|a l IH]; intros H; cbn; constructor.
  - apply H. now left.
  - apply IH. intros x Hx. apply H. now right.
Qed.

Lemma Forall2_map_map {A B} (R : B -> B -> Prop) (f g : A -> B) l :
  (forall x, In x l -> R (f x) (g x)) -> Forall2 R (map f l) (map g l).
Proof.
  induction l as [|a l IH]; intros H; cbn; constructor.
  - apply H. now left.
  - apply IH. intros x Hx. apply H. now right.
Qed.

Lemma clip_Qmin v : (if Qltb 1 v then 1 else v) == Qmin 1 v.
Proof.
  destruct (Qltb 1 v) eqn:E.
  - apply Qltb_spec in E. symmetry. apply Q.min_l. lra.
  - apply Qltb_false in E. symmetry. now apply Q.min_r.
Qed.

Lemma count_used_positive n len : 0 < n -> count_used (Some n) len == n.
Proof.
  intros H. unfold count_used, py_gt0. rewrite (proj2 (Qltb_spec 0 n) H).
  cbn. ring.
Qed.

Lemma count_used_comparisons n len : count_used n len == comparisons n len.
Proof.
  unfold count_used, comparisons, py_gt0, Qltb. destruct n as [v|]; cbn.
  - destruct (Qle_bool v 0); cbn; ring.
  - ring.
Qed.

(** C5. With method "bonferroni" and p-values in [0, 1], the output at
    each position is min(1, n * p[i]), so at most 1, where the count is
    [n], or len(p) when [n] is not supplied or not above 0; and for counts
    0 < n <= n' the output for n' is nowhere below the output for n. *)
Theorem bonferroni_min_monotone (p : pvalues) (m : option Q) (n n' : Q) :
  wf_pvalues p ->
  Forall (fun x => 0 <= x <= 1) (values_of p) ->
  0 < n -> n <= n' ->
  exists qm q q',
    p_adjust p "bonferroni" m =
      Ok {| value := {| shape := shape_of p; data := qm |}; stdout := [] |} /\
    p_adjust p "bonferroni" (Some n) =
      Ok {| value := {| shape := shape_of p; data := q |}; stdout := [] |} /\
    p_adjust p "bonferroni" (Some n') =
      Ok {| value := {| shape := shape_of p; data := q' |}; stdout := [] |} /\
    Forall2 (fun x y => y == Qmin 1 (comparisons m (length (values_of p)) * x)
                        /\ y <= 1) (values_of p) qm /\
    Forall2 (fun x y => y == Qmin 1 (n * x) /\ y <= 1) (values_of p) q /\
    Forall2 Qle q q'.
Proof.
  intros Hwf Hp Hn Hle.
  assert (Hn' : 0 < n') by lra.
  do 3 eexists.
  rewrite !p_adjust_bonferroni by assumption.
  repeat split.
  - apply Forall2_map_self. intros x _. cbv zeta.
    rewrite clip_Qmin, count_used_comparisons. split; [reflexivity|].
    apply Q.le_min_l.
  - apply Forall2_map_self. intros x _. cbv zeta.
    rewrite clip_Qmin, (count_used_positive n _ Hn). split; [reflexivity|].
    apply Q.le_min_l.
  - apply Forall2_map_map. intros x Hx. cbv zeta.
    rewrite !clip_Qmin, (count_used_positive n _ Hn), (count_used_positive n' _ Hn').
    rewrite List.Forall_forall in Hp. destruct (Hp x Hx) as [Hx0 _].
    apply Q.min_le_compat_l. now apply Qmult_le_compat_r.
Qed.

(** C4. With method "fdr" and 100 p-values or more, p_adjust does not
    reach the estimate of pi0: reading the name [sp] (p_adjust.py:104),
    which the module never binds, raises NameError. *)
Theorem pi0_estimate_raises_NameError (p : pvalues) (n : option Q) :
  (100 <= length (values_of p))%nat ->
  p_adjust p "fdr" n = Raise (NameError "sp").
Proof.
  intros Hlen. rewrite p_adjust_fdr_large by assumption. reflexivity.
Qed.

Lemma fdr_example_run :
  p_adjust (PyList [0.03; 0.2; 0.4]) "fdr" None =
  Ok {| value := {| shape := [3%nat]; data := [9 # 100; 6 # 20; 12 # 30] |};
        stdout := [] |}.
Proof. enter_p_adjust. vm_compute. reflexivity. Qed.

(** C1. adjust([0.03, 0.2, 0.4], method="fdr") returns the
    Benjamini-Hochberg values [0.09, 0.3, 0.4], and prints nothing. *)
Theorem fdr_example_values :
  exists q,
    p_adjust (PyList [0.03; 0.2; 0.4]) "fdr" None =
      Ok {| value := {| shape := [3%nat]; data := q |}; stdout := [] |} /\
    Forall2 Qeq q [0.09; 0.3; 0.4].
Proof.
  eexists. split.
  - apply fdr_example_run.
  - repeat constructor.
Qed.

(** C6. With method "fdr": a single p-value is adjusted and returned (to
    itself or to 1, whichever is smaller, times the count), but the empty
    collection raises ZeroDivisionError at pi0 * n/len(p)
    (p_adjust.py:121). *)
Theorem fdr_single_returns_empty_raises :
  (forall (x : Q) (n : option Q), exists q,
     p_adjust (PyList [x]) "fdr" n =
       Ok {| value := {| shape := [1%nat]; data := [q] |}; stdout := [] |} /\
     q == Qmin (count_used n 1 * x) 1) /\
  (forall n : option Q, p_adjust (PyList []) "fdr" n = Raise ZeroDivisionError).
Proof.
  split.
  - intros x n. eexists. split.
    + enter_p_adjust. fold (count_used n 1).
      cbn [np_array shape data ravel length Nat.ltb Nat.leb].
      change (Qltb 1 0) with false. cbv iota.
      change (argsort [x]) with [0%nat].
      cbn [take map nth length]. rewrite py_div_Ok.
      2:{ apply (inject_Z_nat_nonzero 1). lia. }
      cbn [mbind result_bind map].
      reflexivity.
    + cbn [insert list_insert Nat.sub length]. rewrite py_min_Qmin.
      cbn [snd]. apply Q.min_compat; [|reflexivity].
      unfold count_used. change (inject_Z (Z.of_nat 1)) with 1. field.
  - intros n. now apply p_adjust_fdr_empty.
Qed.

(** C9. The value [p_adjust] returns has the shape and the length of its
    argument, and it returns one for "none", for "bonferroni" and for
    "fdr" on 1 to 99 p-values; on 100 p-values or more "fdr" raises
    NameError (p_adjust.py:104) and on none ZeroDivisionError
    (p_adjust.py:121), so that no output exists there. *)
Theorem p_adjust_shape_preserved :
  (forall p method n r,
     wf_pvalues p -> p_adjust p method n = Ok r ->
     shape (value r) = shape_of p /\
     length (data (value r)) = length (values_of p)) /\
  (forall p n,
     wf_pvalues p ->
     (exists r, p_adjust p "none" n = Ok r) /\
     (exists r, p_adjust p "bonferroni" n = Ok r) /\
     ((0 < length (values_of p) < 100)%nat -> exists r, p_adjust p "fdr" n = Ok r)) /\
  (forall p n,
     (100 <= length (values_of p))%nat ->
     p_adjust p "fdr" n = Raise (NameError "sp")) /\
  (forall p n,
     length (values_of p) = 0%nat ->
     p_adjust p "fdr" n = Raise ZeroDivisionError).
Proof.
  split; [|split; [|split]].
  - intros p method n r Hwf Hr.
    destruct (str_in (canonical method) p_adjust_methods) eqn:Hm.
    2:{ rewrite (p_adjust_unknown _ _ _ Hm) in Hr. discriminate. }
    destruct (p_adjust_known p method n Hm) as [E|[E|E]]; rewrite E in Hr; clear E.
    + destruct (Nat.lt_ge_cases (length (values_of p)) 100) as [Hlt|Hge].
      * destruct (values_of p) as [|x l] eqn:Hv.
        { rewrite p_adjust_fdr_empty in Hr by assumption. discriminate. }
        destruct (p_adjust_fdr_small p n Hwf) as [q [Hq Hlen]].
        { rewrite Hv. cbn [length] in *. lia. }
        rewrite Hq in Hr. injection Hr as <-. cbn [value shape data].
        rewrite Hlen, Hv. split; reflexivity.
      * rewrite p_adjust_fdr_large in Hr by assumption. discriminate.
    + rewrite p_adjust_bonferroni in Hr by assumption. injection Hr as <-.
      cbn [value shape data]. now rewrite length_map.
    + rewrite p_adjust_none in Hr. injection Hr as <-. cbn [value].
      now rewrite as_array_shape, as_array_data.
  - intros p n Hwf. repeat split.
    + eexists. apply p_adjust_none.
    + eexists. now apply p_adjust_bonferroni.
    + intros Hlen. destruct (p_adjust_fdr_small p n Hwf Hlen) as [q [Hq _]]. eauto.
  - intros p n Hlen. now apply p_adjust_fdr_large.
  - intros p n Hlen. apply p_adjust_fdr_empty. now apply length_zero_iff_nil.
Qed.

End PAdjustFacts.

Lemma bonferroni_min_monotone_witness :
  exists q q',
    PAdjust.p_adjust unit no_splrep no_splev (PAdjust.PyList [0.03; 0.2; 0.4])
      "bonferroni" (Some 3) =
      Ok {| PAdjust.value := {| shape := [3%nat]; data := q |}; PAdjust.stdout := [] |} /\
    PAdjust.p_adjust unit no_splrep no_splev (PAdjust.PyList [0.03; 0.2; 0.4])
      "bonferroni" (Some 5) =
      Ok {| PAdjust.value := {| shape := [3%nat]; data := q' |}; PAdjust.stdout := [] |} /\
    Forall2 (fun x y => y == Qmin 1 (3 * x) /\ y <= 1) [0.03; 0.2; 0.4] q /\
    Forall2 Qle q q'.
Proof.
  destruct (bonferroni_min_monotone unit no_splrep no_splev
              (PAdjust.PyList [0.03; 0.2; 0.4]) None 3 5)
    as (qm & q & q' & _ & H1 & H2 & _ & H3 & H4).
  - exact I.
  - repeat constructor; cbn; lra.
  - lra.
  - lra.
  - exists q, q'. auto.
Defined.

Lemma pi0_estimate_raises_NameError_witness :
  (100 <= length (PAdjust.values_of (PAdjust.PyList hundred_halves)))%nat /\
  PAdjust.p_adjust unit no_splrep no_splev (PAdjust.PyList hundred_halves)
    "fdr" None = Raise (NameError "sp").
Proof.
  assert (H : (100 <= length (PAdjust.values_of (PAdjust.PyList hundred_halves)))%nat).
  { cbn [PAdjust.values_of]. unfold hundred_halves. rewrite repeat_length. apply le_n. }
  split; [exact H|].
  exact (pi0_estimate_raises_NameError unit no_splrep no_splev _ None H).
Defined.

(** C1, as the specification words it: the call does not return
    [0.4, 0.4, 0.4], whatever the spline functions are. *)
Lemma fdr_example_not_all_0_4 :
  ~ (exists (tck : Type) splrep splev r,
       PAdjust.p_adjust tck splrep splev (PAdjust.PyList [0.03; 0.2; 0.4]) "fdr" None
       = Ok r /\
       Forall2 Qeq (data (PAdjust.value r)) [0.4; 0.4; 0.4]).
Proof.
  intros (tck & splrep & splev & r & Hr & Heq).
  rewrite fdr_example_run in Hr. injection Hr as <-.
  cbn [PAdjust.value data] in Heq.
  inversion Heq as [|? ? ? ? H09 _]; subst.
  unfold Qeq in H09. cbn in H09. discriminate.
Qed.

Lemma bonferroni_example_run (tck : Type) splrep splev (n : option Q) :
  PAdjust.p_adjust tck splrep splev (PAdjust.PyList [0.03; 0.2; 0.4]) "bonferroni" n =
  Ok {| PAdjust.value :=
          {| shape := [3%nat];
             data := map (fun x => let v := PAdjust.count_used n 3 * x in
                                   if Qltb 1 v then 1 else v) [0.03; 0.2; 0.4] |};
        PAdjust.stdout := [] |}.
Proof. exact (p_adjust_bonferroni tck splrep splev (PAdjust.PyList _) n I). Qed.

(** C5, as the specification words it, for every n: with the count 0 the
    call on [0.03, 0.2, 0.4] does not return min(1, 0 * p[i]) = 0 at each
    position (the count used is len(p) = 3 and the output [0.09, 0.6, 1]);
    and raising the count from 0 to 1/2 does lower an output (the output
    for 1/2 is [0.015, 0.1, 0.2]). *)
Lemma bonferroni_count_zero_not_min :
  ~ (exists (tck : Type) splrep splev r,
       PAdjust.p_adjust tck splrep splev (PAdjust.PyList [0.03; 0.2; 0.4])
         "bonferroni" (Some 0) = Ok r /\
       Forall2 (fun x y => y == Qmin 1 (0 * x)) [0.03; 0.2; 0.4]
         (data (PAdjust.value r))) /\
  ~ (exists (tck : Type) splrep splev r r',
       PAdjust.p_adjust tck splrep splev (PAdjust.PyList [0.03; 0.2; 0.4])
         "bonferroni" (Some 0) = Ok r /\
       PAdjust.p_adjust tck splrep splev (PAdjust.PyList [0.03; 0.2; 0.4])
         "bonferroni" (Some (1 # 2)) = Ok r' /\
       Forall2 Qle (data (PAdjust.value r)) (data (PAdjust.value r'))).
Proof.
  split.
  - intros (tck & splrep & splev & r & Hr & Heq).
    rewrite bonferroni_example_run in Hr. injection Hr as <-.
    cbn [PAdjust.value data map] in Heq.
    inversion Heq as [|? ? ? ? H0 _]; subst.
    vm_compute in H0. discriminate.
  - intros (tck & splrep & splev & r & r' & Hr & Hr' & Hle).
    rewrite bonferroni_example_run in Hr, Hr'.
    injection Hr as <-. injection Hr' as <-.
    cbn [PAdjust.value data map] in Hle.
    inversion Hle as [|? ? ? ? H0 _]; subst.
    vm_compute in H0. now apply H0.
Qed.

(** ** The binomial distribution function *)

Section Binomial.
Import RateRatio.

Lemma qpow_compat p q e : p == q -> qpow p e == qpow q e.
Proof.
  intros H. induction e as [|e IH]; cbn [qpow]; [reflexivity|].
  now rewrite IH, H.
Qed.

Lemma sum_upto_ext f g k :
  (forall i, (i <= k)%nat -> f i == g i) -> sum_upto f k == sum_upto g k.
Proof.
  induction k as [|k IH]; intros H; cbn [sum_upto].
  - apply H. lia.
  - rewrite IH, (H (S k)); [reflexivity|lia|]. intros i Hi. apply H. lia.
Qed.

Lemma sum_upto_scale c f k :
  sum_upto (fun i => c * f i) k == c * sum_upto f k.
Proof.
  induction k as [|k IH]; cbn [sum_upto]; [reflexivity|]. rewrite IH. ring.
Qed.

Lemma sum_upto_plus f g k :
  sum_upto (fun i => f i + g i) k == sum_upto f k + sum_upto g k.
Proof.
  induction k as [|k IH]; cbn [sum_upto]; [reflexivity|]. rewrite IH. ring.
Qed.

Lemma sum_upto_shift f k :
  sum_upto f (S k) == f O + sum_upto (fun i => f (S i)) k.
Proof.
  induction k as [|k IH]; [reflexivity|].
  change (sum_upto f (S (S k))) with (sum_upto f (S k) + f (S (S k))).
  rewrite IH. cbn [sum_upto]. ring.
Qed.

Lemma sum_upto_below f a : sum_upto f a == sum_below f a + f a.
Proof. destruct a; cbn [sum_upto sum_below]; ring. Qed.

Lemma sum_reversed f n b : forall a,
  (a + b = n)%nat ->
  sum_upto (fun i => f (n - i)%nat) b + sum_below f a == sum_upto f n.
Proof.
  induction b as [|b IH]; intros a Hab.
  - assert (a = n) as -> by lia. cbn [sum_upto]. rewrite Nat.sub_0_r.
    rewrite (sum_upto_below f n). ring.
  - cbn [sum_upto]. rewrite <- (IH (S a)) by lia. cbn [sum_below].
    rewrite (sum_upto_below f a). replace (n - S b)%nat with a by lia. ring.
Qed.

Lemma comb_gt n : forall k, (n < k)%nat -> comb n k = 0%nat.
Proof.
  induction n as [|n IH]; intros [|k] H; try lia; cbn [comb]; [reflexivity|].
  rewrite !IH by lia. reflexivity.
Qed.

Lemma comb_diag n : comb n n = 1%nat.
Proof.
  induction n as [|n IH]; [reflexivity|]. cbn [comb].
  rewrite IH, comb_gt by lia. reflexivity.
Qed.

Lemma comb_0_r n : comb n 0 = 1%nat.
Proof. now destruct n. Qed.

Lemma comb_sym n : forall k, (k <= n)%nat -> comb n k = comb n (n - k).
Proof.
  induction n as [|n IH]; intros k Hk.
  - now replace k with O by lia.
  - destruct k as [|k].
    + rewrite Nat.sub_0_r, comb_diag. reflexivity.
    + destruct (Nat.eq_dec k n) as [->|Hne].
      * rewrite Nat.sub_diag, comb_diag. reflexivity.
      * replace (S n - S k)%nat with (S (n - S k)) by lia.
        cbn [comb]. rewrite (IH k), (IH (S k)) by lia.
        replace (n - k)%nat with (S (n - S k)) by lia. lia.
Qed.

Lemma inject_nat_plus a b :
  inject_Z (Z.of_nat (a + b)) == inject_Z (Z.of_nat a) + inject_Z (Z.of_nat b).
Proof. rewrite Nat2Z.inj_add, inject_Z_plus. reflexivity. Qed.

Lemma dbinom_above n p i : (n < i)%nat -> dbinom i n p == 0.
Proof.
  intros H. unfold dbinom. rewrite comb_gt by assumption.
  change (inject_Z (Z.of_nat 0)) with 0. ring.
Qed.

Lemma dbinom_step_0 n p : dbinom 0 (S n) p == (1 - p) * dbinom 0 n p.
Proof.
  unfold dbinom. rewrite !comb_0_r, !Nat.sub_0_r. cbn [qpow]. ring.
Qed.

Lemma dbinom_step_S n p i :
  dbinom (S i) (S n) p == p * dbinom i n p + (1 - p) * dbinom (S i) n p.
Proof.
  unfold dbinom. cbn [comb]. rewrite inject_nat_plus.
  change (S n - S i)%nat with (n - i)%nat.
  destruct (Nat.le_gt_cases (S i) n) as [Hle|Hgt].
  - replace (n - i)%nat with (S (n - S i)) by lia. cbn [qpow]. ring.
  - rewrite (comb_gt n (S i)) by lia. change (inject_Z (Z.of_nat 0)) with 0.
    cbn [qpow]. ring.
Qed.

(** The probabilities of 0, ..., n successes add up to 1. *)
Lemma dbinom_total p n : sum_upto (fun i => dbinom i n p) n == 1.
Proof.
  induction n as [|n IH].
  - cbn [sum_upto]. unfold dbinom. cbn [comb qpow Nat.sub].
    change (inject_Z (Z.of_nat 1)) with 1. ring.
  - assert (Hshift : dbinom 0 n p + sum_upto (fun i => dbinom (S i) n p) n == 1).
    { rewrite <- (sum_upto_shift (fun i => dbinom i n p) n).
      cbn [sum_upto]. rewrite IH, dbinom_above by lia. ring. }
    rewrite (sum_upto_shift (fun i => dbinom i (S n) p) n).
    rewrite dbinom_step_0.
    rewrite (sum_upto_ext _ (fun i => p * dbinom i n p + (1 - p) * dbinom (S i) n p)).
    2:{ intros i _. apply dbinom_step_S. }
    rewrite sum_upto_plus, !sum_upto_scale, IH.
    transitivity ((1 - p) * (dbinom 0 n p + sum_upto (fun i => dbinom (S i) n p) n) + p).
    + ring.
    + rewrite Hshift. ring.
Qed.

(** Counting failures instead of successes. *)
Lemma dbinom_reflect p n i :
  (i <= n)%nat -> dbinom i n (1 - p) == dbinom (n - i) n p.
Proof.
  intros H. unfold dbinom. rewrite <- comb_sym by assumption.
  replace (n - (n - i))%nat with i by lia.
  rewrite (qpow_compat (1 - (1 - p)) p) by ring. ring.
Qed.

Lemma dbinom_compat p q n i : p == q -> dbinom i n p == dbinom i n q.
Proof.
  intros H. unfold dbinom.
  rewrite (qpow_compat p q i H), (qpow_compat (1 - p) (1 - q)); [reflexivity|].
  now rewrite H.
Qed.

Lemma pbinom_compat k n p q : p == q -> pbinom k n p == pbinom k n q.
Proof.
  intros H. unfold pbinom. destruct (k <? 0)%Z; [reflexivity|].
  apply sum_upto_ext. intros i _. now apply dbinom_compat.
Qed.

Lemma pbinom_below a b p :
  (0 <= a)%Z -> (0 <= b)%Z ->
  pbinom (a - 1) (a + b) p ==
  sum_below (fun i => dbinom i (Z.to_nat (a + b)) p) (Z.to_nat a).
Proof.
  intros Ha Hb. unfold pbinom. destruct (Z.ltb_spec (a - 1) 0).
  - assert (a = 0%Z) as -> by lia. reflexivity.
  - replace (Z.to_nat (Z.min (a - 1) (a + b))) with (Z.to_nat a - 1)%nat by lia.
    destruct (Z.to_nat a) eqn:E; [lia|]. cbn [sum_below].
    now rewrite Nat.sub_succ, Nat.sub_0_r.
Qed.

(** At most b successes with probability 1 - p each: at least a
    failures, out of a + b trials. *)
Lemma pbinom_reflect a b p :
  (0 <= a)%Z -> (0 <= b)%Z ->
  pbinom b (a + b) (1 - p) == 1 - pbinom (a - 1) (a + b) p.
Proof.
  intros Ha Hb. rewrite (pbinom_below a b p Ha Hb).
  unfold pbinom. destruct (Z.ltb_spec b 0); [lia|].
  replace (Z.min b (a + b)) with b by lia.
  set (n := Z.to_nat (a + b)).
  rewrite (sum_upto_ext _ (fun i => dbinom (n - i) n p)).
  2:{ intros i Hi. apply dbinom_reflect. unfold n. lia. }
  rewrite <- (dbinom_total p n).
  rewrite <- (sum_reversed (fun i => dbinom i n p) n (Z.to_nat b) (Z.to_nat a)).
  - ring.
  - unfold n. lia.
Qed.

End Binomial.

(** ** rateratio.test *)

Section RateRatioFacts.
Import RateRatio.
Variable qbeta : Q -> Z -> Z -> Q.
Local Abbreviation test := (RateRatio.test qbeta).
Local Abbreviation p_L := (RateRatio.p_L qbeta).
Local Abbreviation p_U := (RateRatio.p_U qbeta).

Lemma min_exposure_positive n0 n1 :
  0 < n0 -> 0 < n1 -> Qltb 0 (if Qltb n1 n0 then n1 else n0) = true.
Proof. intros. destruct (Qltb n1 n0); now apply Qltb_spec. Qed.

Lemma min_count_nonneg x0 x1 :
  (0 <= x0)%Z -> (0 <= x1)%Z -> (0 <=? (if x1 <? x0 then x1 else x0))%Z = true.
Proof. intros. destruct (x1 <? x0)%Z; now apply Z.leb_le. Qed.

Lemma conf_level_in_range c :
  0 < c < 1 -> Qltb 0 c && Qltb c 1 = true.
Proof. intros [H0 H1]. apply andb_true_iff. split; now apply Qltb_spec. Qed.

Lemma alternative_known a : In a alternatives -> str_in a alternatives = true.
Proof.
  intros [<-|[<-|[<-|[]]]]; reflexivity.
Qed.

Lemma rate_nonzero x n : (0 < x)%Z -> 0 < n -> ~ 1 * inject_Z x / n == 0.
Proof.
  intros Hx Hn E.
  assert (0 < inject_Z x) as Hq by (unfold Qlt; cbn; lia).
  assert (0 < 1 * inject_Z x / n); [|lra].
  apply Qlt_shift_div_l; lra.
Qed.

Lemma rate_zero n : 1 * inject_Z 0 / n == 0.
Proof. unfold Qdiv. ring. Qed.

Lemma pRR_divisor n0 n1 RR : 0 < n0 -> 0 < n1 -> 0 < RR -> ~ n0 * RR + n1 == 0.
Proof.
  intros H0 H1 HR E. assert (0 < n0 * RR) by (apply Qmult_lt_0_compat; assumption). lra.
Qed.

Lemma test_zero_second_count x0 n0 n1 RR alt c :
  valid_args x0 0 n0 n1 RR alt c ->
  test [x0; 0%Z] [n0; n1] RR alt c = Raise ZeroDivisionError.
Proof.
  intros (Hx0 & Hx1 & Hn0 & Hn1 & HRR & Halt & Hc).
  pass_checks (min_exposure_positive _ _ Hn0 Hn1) (min_count_nonneg _ _ Hx0 Hx1)
    (proj2 (Qltb_spec 0 _) HRR) (alternative_known _ Halt)
    (conf_level_in_range _ Hc).
  rewrite (py_div_Ok _ _ (Qnot_eq_sym _ _ (Qlt_not_eq _ _ Hn0))).
  rewrite (py_div_Ok _ _ (Qnot_eq_sym _ _ (Qlt_not_eq _ _ Hn1))).
  cbn [mbind result_bind]. rewrite (py_div_zero _ _ (rate_zero n1)). reflexivity.
Qed.


Lemma rate_bound_upper x0 x1 n0 n1 a :
  (0 < x1)%Z ->
  rate_bound (p_U x0 (x1 + x0) a) n0 n1 =
  Ok (rate_transform (upper_proportion qbeta x0 (x0 + x1) a) n0 n1).
Proof.
  intros Hpos. unfold RateRatio.p_U, upper_proportion. rewrite (Z.add_comm x1 x0).
  destruct (Z.eqb_spec x0 (x0 + x1)); [lia|]. reflexivity.
Qed.

Lemma rate_bound_lower x0 x1 n0 n1 a :
  0 < n0 ->
  rate_bound (p_L x0 (x1 + x0) a) n0 n1 =
  Ok (rate_transform (lower_proportion qbeta x0 (x0 + x1) a) n0 n1).
Proof.
  intros Hn0. unfold RateRatio.p_L, lower_proportion. rewrite (Z.add_comm x1 x0).
  destruct (Z.eqb_spec x0 0); [|reflexivity].
  unfold rate_bound, rate_transform, np_div. change (inject_Z 0) with 0.
  assert (Hd : ~ n0 * (1 - 0) == 0) by (intros E; lra).
  rewrite (py_div_Ok _ _ Hd).
  destruct (Qeq_bool (n0 * (1 - 0)) 0) eqn:E; [|reflexivity].
  apply Qeq_bool_iff in E. contradiction.
Qed.

Lemma test_returns x0 x1 n0 n1 RR alt c :
  valid_args x0 x1 n0 n1 RR alt c -> (0 < x1)%Z ->
  test [x0; x1] [n0; n1] RR alt c =
  Ok {| p_value := computed_p_value x0 x1 n0 n1 RR (match_arg alt);
        estimate := [1 * inject_Z x0 / n0 / (1 * inject_Z x1 / n1);
                     1 * inject_Z x0 / n0; 1 * inject_Z x1 / n1];
        null_value := RR;
        conf_int := computed_interval qbeta x0 x1 n0 n1 (match_arg alt) c ++ [Fin c];
        alternative := match_arg alt;
        method := "Exact Rate Ratio Test, assuming Poisson counts";
        data_name := ([x0; x1], [n0; n1], RR) |}.
Proof.
  intros (Hx0 & Hx1 & Hn0 & Hn1 & HRR & Halt & Hc) Hpos.
  pass_checks (min_exposure_positive _ _ Hn0 Hn1) (min_count_nonneg _ _ Hx0 Hx1)
    (proj2 (Qltb_spec 0 _) HRR) (alternative_known _ Halt)
    (conf_level_in_range _ Hc).
  rewrite (py_div_Ok _ _ (Qnot_eq_sym _ _ (Qlt_not_eq _ _ Hn0))).
  rewrite (py_div_Ok _ _ (Qnot_eq_sym _ _ (Qlt_not_eq _ _ Hn1))).
  cbn [mbind result_bind].
  rewrite (py_div_Ok _ _ (rate_nonzero _ _ Hpos Hn1)).
  rewrite (py_div_Ok _ _ (pRR_divisor _ _ _ Hn0 Hn1 HRR)).
  cbn [mbind result_bind].
  unfold computed_p_value, computed_interval. cbv zeta.
  rewrite !(rate_bound_upper _ _ _ _ _ Hpos), !(rate_bound_lower _ x1 _ n1 _ Hn0).
  rewrite (Z.add_comm x0 x1).
  destruct Halt as [<-|[<-|[<-|[]]]]; run_strings; cbv iota; reflexivity.
Qed.


Lemma computed_p_value_spec x0 x1 n0 n1 RR alt :
  computed_p_value x0 x1 n0 n1 RR alt == spec_p_value x0 x1 n0 n1 RR alt.
Proof.
  unfold computed_p_value, spec_p_value, null_proportion. cbv zeta.
  rewrite (Z.add_comm x1 x0).
  assert (Hp : 1 * n0 * RR / (n0 * RR + n1) == n0 * RR / (n0 * RR + n1)).
  { unfold Qdiv. ring. }
  pose proof (pbinom_compat x0 (x0 + x1) _ _ Hp) as Hless.
  pose proof (pbinom_compat (x0 - 1) (x0 + x1) _ _ Hp) as Hgreater.
  destruct (alt =? "less"); [exact Hless|].
  destruct (alt =? "greater"); [now rewrite Hgreater|].
  etransitivity; [apply py_min_Qmin|].
  apply Q.min_compat; [reflexivity|].
  apply Qmult_comp; [reflexivity|].
  etransitivity; [apply py_min_Qmin|].
  apply Q.min_compat; [exact Hless|now rewrite Hgreater].
Qed.

(** C10. With a second count of 0, and arguments that meet every
    precondition, [test] raises ZeroDivisionError at the rate ratio
    (x0/n0)/(x1/n1) and returns no result. *)
Theorem zero_second_count_raises (x0 : Z) (n0 n1 RR : Q) (alt : string) (c : Q) :
  valid_args x0 0 n0 n1 RR alt c ->
  test [x0; 0%Z] [n0; n1] RR alt c = Raise ZeroDivisionError.
Proof.
  intros H. now apply test_zero_second_count.
Qed.

(** C2. For valid arguments with a second count above 0, [test] returns
    a result whose p-value is pval_less under "less", pval_greater under
    "greater" and min(1, 2*min(pval_less, pval_greater)) under
    "two.sided", with pval_less = BinomCDF(x0; x0+x1, p), pval_greater =
    1 - BinomCDF(x0-1; x0+x1, p) and p = n0*RR/(n0*RR + n1).  With a second
    count of 0, which is as valid, it raises ZeroDivisionError instead. *)
Theorem p_value_formula :
  (forall x0 x1 n0 n1 RR alt c,
     valid_args x0 x1 n0 n1 RR alt c -> (0 < x1)%Z ->
     exists r, test [x0; x1] [n0; n1] RR alt c = Ok r /\
               alternative r = match_arg alt /\
               p_value r == spec_p_value x0 x1 n0 n1 RR (match_arg alt)) /\
  (forall x0 n0 n1 RR alt c,
     valid_args x0 0 n0 n1 RR alt c ->
     test [x0; 0%Z] [n0; n1] RR alt c = Raise ZeroDivisionError).
Proof.
  split.
  - intros x0 x1 n0 n1 RR alt c Hvalid Hpos.
    eexists. split; [now apply test_returns|].
    cbn [alternative p_value]. split; [reflexivity|].
    apply computed_p_value_spec.
  - intros x0 n0 n1 RR alt c. apply test_zero_second_count.
Qed.

(** C3. For valid arguments with a second count above 0, the interval
    of [test] is [0, T(pU)] under "less" and [T(pL), +infinity) under
    "greater", the proportions taken at tail 1 - conf_level, and
    [T(pL), T(pU)] at tail (1 - conf_level)/2 under "two.sided"; the
    confidence level follows the two bounds. *)
Theorem conf_int_formula (x0 x1 : Z) (n0 n1 RR : Q) (alt : string) (c : Q) :
  valid_args x0 x1 n0 n1 RR alt c -> (0 < x1)%Z ->
  exists r,
    test [x0; x1] [n0; n1] RR alt c = Ok r /\
    (match_arg alt = "less" ->
       conf_int r =
       [Fin 0;
        rate_transform (upper_proportion qbeta x0 (x0 + x1) (1 - c)) n0 n1;
        Fin c]) /\
    (match_arg alt = "greater" ->
       conf_int r =
       [rate_transform (lower_proportion qbeta x0 (x0 + x1) (1 - c)) n0 n1;
        PosInf;
        Fin c]) /\
    (match_arg alt = "two.sided" ->
       conf_int r =
       [rate_transform (lower_proportion qbeta x0 (x0 + x1) ((1 - c) / 2)) n0 n1;
        rate_transform (upper_proportion qbeta x0 (x0 + x1) ((1 - c) / 2)) n0 n1;
        Fin c]).
Proof.
  intros Hvalid Hpos. eexists. split; [now apply test_returns|].
  cbn [conf_int]. unfold computed_interval.
  repeat split; intros ->; reflexivity.
Qed.

Lemma null_proportion_swap n0 n1 RR :
  0 < n0 -> 0 < n1 -> 0 < RR ->
  1 * n1 * (1 / RR) / (n1 * (1 / RR) + n0) == 1 - 1 * n0 * RR / (n0 * RR + n1).
Proof.
  intros H0 H1 HR.
  assert (~ n0 * RR + n1 == 0) by now apply pRR_divisor.
  assert (~ RR == 0) by (intros E; lra).
  field. repeat split; try assumption;
    intros E; apply H; rewrite <- E; ring.
Qed.

Lemma valid_swapped x0 x1 n0 n1 RR alt c :
  (0 <= x0)%Z -> (0 <= x1)%Z -> 0 < n0 -> 0 < n1 -> 0 < RR ->
  In (match_arg alt) alternatives -> 0 < c < 1 ->
  valid_args x1 x0 n1 n0 (1 / RR) alt c.
Proof.
  intros. repeat split; try tauto.
  apply Qlt_shift_div_l; lra.
Qed.

Lemma p_value_greater_less x0 x1 n0 n1 RR :
  (0 <= x0)%Z -> (0 <= x1)%Z -> 0 < n0 -> 0 < n1 -> 0 < RR ->
  computed_p_value x0 x1 n0 n1 RR "greater" ==
  computed_p_value x1 x0 n1 n0 (1 / RR) "less".
Proof.
  intros Hx0 Hx1 H0 H1 HR. unfold computed_p_value. cbv zeta. run_strings. cbv iota.
  rewrite (pbinom_compat x1 (x0 + x1) _ _ (null_proportion_swap n0 n1 RR H0 H1 HR)).
  rewrite (pbinom_reflect x0 x1) by assumption. reflexivity.
Qed.

Lemma p_value_less_greater x0 x1 n0 n1 RR :
  (0 <= x0)%Z -> (0 <= x1)%Z -> 0 < n0 -> 0 < n1 -> 0 < RR ->
  computed_p_value x0 x1 n0 n1 RR "less" ==
  computed_p_value x1 x0 n1 n0 (1 / RR) "greater".
Proof.
  intros Hx0 Hx1 H0 H1 HR. unfold computed_p_value. cbv zeta. run_strings. cbv iota.
  rewrite (pbinom_compat (x1 - 1) (x1 + x0) _ _ (null_proportion_swap n0 n1 RR H0 H1 HR)).
  assert (Hp : 1 * n0 * RR / (n0 * RR + n1) ==
               1 - (1 - 1 * n0 * RR / (n0 * RR + n1))) by ring.
  rewrite (pbinom_compat x0 (x1 + x0) _ _ Hp).
  rewrite (pbinom_reflect x1 x0) by assumption. ring.
Qed.

(** C8. For positive counts, valid exposures and RR > 0, the p-value
    of test((x0, x1), (n0, n1), RR, "greater") equals the p-value of
    test((x1, x0), (n1, n0), 1/RR, "less"), and likewise with the
    alternatives exchanged.  With x1 = 0 the first call raises
    ZeroDivisionError while the second returns a result. *)
Theorem p_value_symmetry :
  (forall x0 x1 n0 n1 RR c c',
     (0 < x0)%Z -> (0 < x1)%Z -> 0 < n0 -> 0 < n1 -> 0 < RR ->
     0 < c < 1 -> 0 < c' < 1 ->
     exists r r',
       test [x0; x1] [n0; n1] RR "greater" c = Ok r /\
       test [x1; x0] [n1; n0] (1 / RR) "less" c' = Ok r' /\
       p_value r == p_value r') /\
  (forall x0 x1 n0 n1 RR c c',
     (0 < x0)%Z -> (0 < x1)%Z -> 0 < n0 -> 0 < n1 -> 0 < RR ->
     0 < c < 1 -> 0 < c' < 1 ->
     exists r r',
       test [x0; x1] [n0; n1] RR "less" c = Ok r /\
       test [x1; x0] [n1; n0] (1 / RR) "greater" c' = Ok r' /\
       p_value r == p_value r') /\
  (forall x0 n0 n1 RR c c',
     (0 < x0)%Z -> 0 < n0 -> 0 < n1 -> 0 < RR ->
     0 < c < 1 -> 0 < c' < 1 ->
     test [x0; 0%Z] [n0; n1] RR "greater" c = Raise ZeroDivisionError /\
     exists r', test [0%Z; x0] [n1; n0] (1 / RR) "less" c' = Ok r').
Proof.
  split; [|split].
  - intros x0 x1 n0 n1 RR c c' Hx0 Hx1 Hn0 Hn1 HRR Hc Hc'.
    do 2 eexists. split; [|split].
    + apply test_returns; [|assumption].
      repeat split; try tauto; try lia. right; right; now left.
    + apply test_returns; [|assumption].
      apply valid_swapped; try tauto; try lia. right; now left.
    + cbn [p_value]. apply p_value_greater_less; try assumption; lia.
  - intros x0 x1 n0 n1 RR c c' Hx0 Hx1 Hn0 Hn1 HRR Hc Hc'.
    do 2 eexists. split; [|split].
    + apply test_returns; [|assumption].
      repeat split; try tauto; try lia. right; now left.
    + apply test_returns; [|assumption].
      apply valid_swapped; try tauto; try lia. right; right; now left.
    + cbn [p_value]. apply p_value_less_greater; try assumption; lia.
  - intros x0 n0 n1 RR c c' Hx0 Hn0 Hn1 HRR Hc Hc'. split.
    + apply test_zero_second_count.
      repeat split; try tauto; try lia. right; right; now left.
    + eexists. apply test_returns; [|assumption].
      apply valid_swapped; try tauto; try lia. right; now left.
Qed.

Lemma min_exposure_positive_inv n0 n1 :
  Qltb 0 (if Qltb n1 n0 then n1 else n0) = true -> 0 < n0 /\ 0 < n1.
Proof.
  destruct (Qltb n1 n0) eqn:E; intros H; apply Qltb_spec in H.
  - apply Qltb_spec in E. split; lra.
  - apply Qltb_false in E. split; lra.
Qed.

Lemma min_count_nonneg_inv x0 x1 :
  (0 <=? (if x1 <? x0 then x1 else x0))%Z = true -> (0 <= x0)%Z /\ (0 <= x1)%Z.
Proof.
  destruct (Z.ltb_spec x1 x0); intros Hm; apply Z.leb_le in Hm; lia.
Qed.

Lemma message_injective k k' : message k = message k' -> k = k'.
Proof.
  destruct k, k'; intros H; try reflexivity; vm_compute in H; discriminate.
Qed.

Lemma test_rejects x n RR alt c :
  invalid_args x n RR alt c ->
  exists k, ~ satisfied k x n RR alt c /\
            test x n RR alt c = Raise (AssertionError (message k)).
Proof.
  intros Hinv. unfold RateRatio.test. cbv zeta.
  destruct (Nat.eqb_spec (length x) 2) as [Hx|Hx].
  2:{ exists Length_x. split; [exact Hx|reflexivity]. }
  destruct (Nat.eqb_spec (length x) (length n)) as [Hn|Hn].
  2:{ exists Length_n. split; [cbn; congruence|reflexivity]. }
  destruct x as [|x0 [|x1 [|? ?]]]; try discriminate.
  destruct n as [|n0 [|n1 [|? ?]]]; try discriminate.
  cbn [py_assert mbind result_bind list_min fold_left].
  destruct (Qltb 0 (if Qltb n1 n0 then n1 else n0)) eqn:En.
  2:{ exists Positive_exposure. split; [|reflexivity]. cbn [satisfied]. intros HF.
      inversion HF as [|? ? H0 HF']; subst. inversion HF' as [|? ? H1 _]; subst.
      rewrite (min_exposure_positive _ _ H0 H1) in En. discriminate. }
  destruct (0 <=? (if x1 <? x0 then x1 else x0))%Z eqn:Ex.
  2:{ exists Nonnegative_count. split; [|reflexivity]. cbn [satisfied]. intros HF.
      inversion HF as [|? ? H0 HF']; subst. inversion HF' as [|? ? H1 _]; subst.
      rewrite (min_count_nonneg _ _ H0 H1) in Ex. discriminate. }
  destruct (Qltb 0 RR) eqn:ER.
  2:{ exists Positive_RR. split; [|reflexivity]. cbn [satisfied]. intros H.
      apply Qltb_spec in H. congruence. }
  fold alternatives.
  destruct (str_in (match_arg alt) alternatives) eqn:Ea.
  2:{ exists Known_alternative. split; [|reflexivity]. cbn [satisfied]. intros H.
      apply str_in_In in H. congruence. }
  destruct (Qltb 0 c && Qltb c 1) eqn:Ec.
  2:{ exists Conf_level_range. split; [|reflexivity]. cbn [satisfied]. intros H.
      rewrite (conf_level_in_range _ H) in Ec. discriminate. }
  exfalso.
  apply min_exposure_positive_inv in En as [H0 H1].
  apply min_count_nonneg_inv in Ex as [Hx0 Hx1].
  apply Qltb_spec in ER. apply str_in_In in Ea.
  apply andb_true_iff in Ec as [Hc0 Hc1].
  apply Qltb_spec in Hc0. apply Qltb_spec in Hc1.
  destruct Hinv as [H|[H|[H|[H|[H|[H|[H|H]]]]]]]; try (cbn in H; congruence); try lra.
  - apply List.Exists_exists in H as [e [[<-|[<-|[]]] He]]; lra.
  - apply List.Exists_exists in H as [e [[<-|[<-|[]]] He]]; lia.
  - contradiction.
Qed.

(** C7. An unknown method makes [p_adjust] raise an AssertionError that
    names the methods; any invalid argument of [test] (x or n not of
    length 2, an exposure not above 0, a count below 0, RR not above 0, an
    alternative that is not recognised, conf_level not strictly between
    0 and 1) makes it raise an AssertionError whose message is that of a
    precondition the arguments violate, and no two preconditions share a
    message. *)
Theorem invalid_arguments_raise :
  (forall tck splrep splev p method n,
     ~ In (lower method) ["fdr"; "bh"; "bonferroni"; "none"] ->
     PAdjust.p_adjust tck splrep splev p method n =
     Raise (AssertionError "ERROR! method must be one of fdr,bonferroni,none")) /\
  (forall x n RR alt c,
     invalid_args x n RR alt c ->
     exists k, ~ satisfied k x n RR alt c /\
               test x n RR alt c = Raise (AssertionError (message k))) /\
  (forall k k', message k = message k' -> k = k').
Proof.
  split; [|split].
  - apply p_adjust_rejects.
  - apply test_rejects.
  - apply message_injective.
Qed.

End RateRatioFacts.

(** ** Closed instances *)

Lemma example_valid_less :
  RateRatio.valid_args 0 1 1 1 1 "less" 0.95.
Proof.
  repeat split; try reflexivity; try discriminate. right; now left.
Defined.

Lemma example_valid_zero :
  RateRatio.valid_args 3 0 1 1 1 "two.sided" 0.95.
Proof.
  repeat split; try reflexivity; try discriminate. now left.
Defined.

Lemma zero_second_count_raises_witness :
  RateRatio.valid_args 3 0 1 1 1 "two.sided" 0.95 /\
  RateRatio.test uniform_quantile [3%Z; 0%Z] [1; 1] 1 "two.sided" 0.95 =
  Raise ZeroDivisionError.
Proof.
  split; [exact example_valid_zero|].
  exact (zero_second_count_raises uniform_quantile 3 1 1 1 "two.sided" 0.95
           example_valid_zero).
Defined.

Lemma p_value_formula_witness :
  exists r,
    RateRatio.test uniform_quantile [0%Z; 1%Z] [1; 1] 1 "less" 0.95 = Ok r /\
    RateRatio.alternative r = "less" /\
    RateRatio.p_value r == RateRatio.spec_p_value 0 1 1 1 1 "less".
Proof.
  exact (proj1 (p_value_formula uniform_quantile) 0%Z 1%Z 1 1 1 "less" 0.95
           example_valid_less eq_refl).
Defined.

Lemma conf_int_formula_witness :
  exists r,
    RateRatio.test uniform_quantile [0%Z; 1%Z] [1; 1] 1 "less" 0.95 = Ok r /\
    RateRatio.conf_int r =
    [RateRatio.Fin 0;
     RateRatio.rate_transform
       (RateRatio.upper_proportion uniform_quantile 0 (0 + 1) (1 - 0.95)) 1 1;
     RateRatio.Fin 0.95].
Proof.
  destruct (conf_int_formula uniform_quantile 0 1 1 1 1 "less" 0.95
              example_valid_less eq_refl) as (r & Hr & Hless & _).
  exists r. split; [exact Hr|]. exact (Hless eq_refl).
Defined.

(** The interval of the call the counterexample below is about. *)
Lemma conf_int_less_example :
  exists r,
    RateRatio.test uniform_quantile [0%Z; 1%Z] [1; 1] 1 "less" 0.95 = Ok r /\
    Forall2 RateRatio.xfloat_eq (RateRatio.conf_int r)
      [RateRatio.Fin 0; RateRatio.Fin 19; RateRatio.Fin 0.95].
Proof.
  eexists. split; [vm_compute; reflexivity|].
  repeat constructor.
Qed.

(** C3, as the specification words it ("less": the bound built from the
    lower-bound proportion): for counts (0, 1), exposures (1, 1), RR = 1
    and conf_level = 0.95 the interval of [test] is [0, 19], the specified one
    [0, 0], for every quantile function that is right on Beta(1, 1), the
    uniform distribution. *)
Lemma conf_int_less_not_lower_proportion :
  ~ (exists qbeta r,
       (forall u, qbeta u 1%Z 1%Z == u) /\
       RateRatio.test qbeta [0%Z; 1%Z] [1; 1] 1 "less" 0.95 = Ok r /\
       Forall2 RateRatio.xfloat_eq (RateRatio.conf_int r)
         (RateRatio.spec_interval qbeta 0 1 1 1 "less" 0.95
          ++ [RateRatio.Fin 0.95])).
Proof.
  intros (qbeta & r & Hq & Hr & Hci).
  rewrite (test_returns qbeta 0 1 1 1 1 "less" 0.95 example_valid_less eq_refl) in Hr.
  injection Hr as <-. cbn [RateRatio.conf_int] in Hci.
  inversion Hci as [|? ? ? ? _ Htail]; subst. clear Hci.
  inversion Htail as [|? ? ? ? Hhi _]; subst. clear Htail.
  unfold RateRatio.rate_transform, RateRatio.upper_proportion,
    RateRatio.lower_proportion in Hhi.
  change (0 + 1)%Z with 1%Z in Hhi. change (1 - 0)%Z with 1%Z in Hhi.
  change (0 =? 1)%Z with false in Hhi. change (0 =? 0)%Z with true in Hhi.
  cbv iota in Hhi.
  specialize (Hq (1 - (1 - 0.95))).
  set (q := qbeta (1 - (1 - 0.95)) 1%Z 1%Z) in *.
  unfold RateRatio.np_div in Hhi.
  destruct (Qeq_bool (1 * (1 - q)) 0) eqn:E.
  { apply Qeq_bool_iff in E. lra. }
  change (Qeq_bool (1 * (1 - 0)) 0) with false in Hhi.
  cbn [RateRatio.xfloat_eq] in Hhi.
  assert (Hz : q * 1 == 0).
  { rewrite <- (Qmult_div_r (q * 1) (1 * (1 - q))) by (intros E'; lra).
    rewrite Hhi. unfold Qdiv. ring. }
  lra.
Qed.

Lemma invalid_arguments_raise_witness :
  PAdjust.p_adjust unit no_splrep no_splev (PAdjust.PyList [0.03; 0.2; 0.4])
    "holm" None =
    Raise (AssertionError "ERROR! method must be one of fdr,bonferroni,none") /\
  exists k,
    ~ RateRatio.satisfied k [2%Z; 9%Z] [17877; 16660] 0 "two.sided" 0.95 /\
    RateRatio.test uniform_quantile [2%Z; 9%Z] [17877; 16660] 0 "two.sided" 0.95 =
    Raise (AssertionError (RateRatio.message k)).
Proof.
  split.
  - apply (proj1 (invalid_arguments_raise uniform_quantile)).
    cbn. intros [H|[H|[H|[H|[]]]]]; discriminate.
  - apply (proj1 (proj2 (invalid_arguments_raise uniform_quantile))).
    unfold RateRatio.invalid_args. do 4 right. left. discriminate.
Defined.

Lemma p_value_symmetry_witness :
  exists r r',
    RateRatio.test uniform_quantile [2%Z; 9%Z] [17877; 16660] 2 "greater" 0.95 = Ok r /\
    RateRatio.test uniform_quantile [9%Z; 2%Z] [16660; 17877] (1 / 2) "less" 0.95 = Ok r' /\
    RateRatio.p_value r == RateRatio.p_value r'.
Proof.
  apply (proj1 (p_value_symmetry uniform_quantile));
    try reflexivity; split; reflexivity.
Defined.

Lemma p_adjust_shape_preserved_witness :
  exists r,
    PAdjust.p_adjust unit no_splrep no_splev (PAdjust.PyList [0.03; 0.2; 0.4])
      "fdr" None = Ok r /\
    shape (PAdjust.value r) = [3%nat] /\
    length (data (PAdjust.value r)) = 3%nat.
Proof.
  destruct (proj1 (proj2 (p_adjust_shape_preserved unit no_splrep no_splev))
              (PAdjust.PyList [0.03; 0.2; 0.4]) None I) as (_ & _ & Hfdr).
  destruct Hfdr as [r Hr]; [cbn; lia|].
  exists r. split; [exact Hr|].
  exact (proj1 (p_adjust_shape_preserved unit no_splrep no_splev)
           (PAdjust.PyList [0.03; 0.2; 0.4]) "fdr" None r I Hr).
Defined.

(** * Further properties *)

(** ** Index arrays *)

Lemma put_outside qv idx : forall vals i,
  ~ In i idx -> put qv idx vals !! i = qv !! i.
Proof.
  unfold put. revert qv. induction idx as [|j idx IH]; intros qv vals i Hi.
  - reflexivity.
  - destruct vals as [|v vals]; [reflexivity|]. cbn [combine fold_left fst snd].
    rewrite IH by (intros H; apply Hi; now right).
    apply list_lookup_insert_ne. intros ->. apply Hi. now left.
Qed.

(** Writing through an index array without repeats puts the k-th value
    at the k-th index. *)
Lemma put_lookup idx : forall qv vals k i v,
  List.NoDup idx -> idx !! k = Some i -> vals !! k = Some v ->
  (i < length qv)%nat ->
  put qv idx vals !! i = Some v.
Proof.
  induction idx as [|j idx IH]; intros qv vals k i v Hnd Hk Hv Hi.
  - discriminate.
  - destruct vals as [|v0 vals]; [discriminate|].
    inversion Hnd as [|? ? Hj Hnd']; subst.
    change (put qv (j :: idx) (v0 :: vals)) with (put (<[j := v0]> qv) idx vals).
    destruct k as [|k]; cbn in Hk, Hv.
    + injection Hk as ->. injection Hv as ->.
      rewrite put_outside by assumption.
      now apply list_lookup_insert_eq.
    + apply (IH _ _ k); try assumption. now rewrite length_insert.
Qed.

Lemma argsort_NoDup p : List.NoDup (argsort p).
Proof.
  apply (Permutation_NoDup (l := seq 0 (length p))).
  - symmetry. apply argsort_perm.
  - apply seq_NoDup.
Qed.

Lemma argsort_position p i :
  (i < length p)%nat -> exists k, argsort p !! k = Some i.
Proof.
  intros H. apply argsort_In in H. apply list_elem_of_In in H.
  now apply list_elem_of_lookup_1 in H.
Qed.

Lemma take_lookup p idx k i x :
  idx !! k = Some i -> p !! i = Some x -> take p idx !! k = Some x.
Proof.
  intros Hk Hi. unfold take. rewrite list_lookup_fmap, Hk. cbn.
  f_equal. apply nth_lookup_Some with (d := 0) in Hi. exact Hi.
Qed.

Lemma strongly_sorted_lookup {A} (R : A -> A -> Prop) l :
  StronglySorted R l ->
  forall a b x y, (a < b)%nat -> l !! a = Some x -> l !! b = Some y -> R x y.
Proof.
  induction 1 as [|z l Hs IH Hall]; intros a b x y Hab Ha Hb.
  - discriminate.
  - destruct b as [|b]; [lia|]. cbn in Hb.
    destruct a as [|a]; cbn in Ha.
    + injection Ha as ->. rewrite List.Forall_forall in Hall. apply Hall.
      apply list_elem_of_In. eapply list_elem_of_lookup_2. exact Hb.
    + apply (IH a b); [lia|assumption|assumption].
Qed.

(** The p-values in the order of [argsort] are non-decreasing. *)
Lemma take_argsort_sorted p a b x y :
  (a < b)%nat ->
  take p (argsort p) !! a = Some x -> take p (argsort p) !! b = Some y ->
  x <= y.
Proof.
  intros Hab Ha Hb. unfold take in Ha, Hb.
  rewrite list_lookup_fmap in Ha, Hb.
  destruct (argsort p !! a) as [i|] eqn:Ei; [|discriminate].
  destruct (argsort p !! b) as [j|] eqn:Ej; [|discriminate].
  cbn in Ha, Hb. injection Ha as <-. injection Hb as <-.
  assert (Hss : StronglySorted (fun a b => nth a p 0 <= nth b p 0) (argsort p)).
  { apply Sorted_StronglySorted; [|apply argsort_sorted].
    intros u v w Huv Hvw. now apply Qle_trans with (nth v p 0). }
  exact (strongly_sorted_lookup _ _ Hss a b i j Hab Ei Ej).
Qed.

(** A list that never falls from one position to the next never falls. *)
Lemma chain_le (l : list Q) :
  (forall k x y, l !! k = Some x -> l !! S k = Some y -> x <= y) ->
  forall d a x y, l !! a = Some x -> l !! (a + d)%nat = Some y -> x <= y.
Proof.
  intros Hstep. induction d as [|d IH]; intros a x y Ha Hb.
  - rewrite Nat.add_0_r in Hb. rewrite Ha in Hb. injection Hb as ->. apply Qle_refl.
  - replace (a + S d)%nat with (S (a + d)) in Hb by lia.
    destruct (lookup_lt_is_Some_2 l (a + d)%nat) as [z Hz].
    { apply lookup_lt_Some in Hb. lia. }
    apply Qle_trans with z; [now apply (IH a)|now apply (Hstep (a + d)%nat)].
Qed.

(** ** The Benjamini-Hochberg values *)

Section PAdjustValues.
Import PAdjust.
Variable tck : Type.
Variable splrep : list Q -> list Q -> nat -> tck.
Variable splev : Q -> tck -> Q.
Local Abbreviation p_adjust := (PAdjust.p_adjust tck splrep splev).

(** The loop of p_adjust.py:124-125 run from index m-1 down to 0: the
    positions from m on are untouched, and each position below m holds the
    smaller of its own raw value and the value that follows it. *)
Lemma bh_loop_spec pi0 n ps m : forall qv,
  length qv = length ps -> (m < length ps)%nat ->
  exists qv',
    fold_left (bh_step pi0 n ps) (map Z.of_nat (rev (seq 0 m))) (Ok qv) = Ok qv' /\
    length qv' = length ps /\
    (forall j, (m <= j)%nat -> qv' !! j = qv !! j) /\
    (forall k, (k < m)%nat ->
       exists pk nx,
         ps !! k = Some pk /\ qv' !! S k = Some nx /\
         qv' !! k = Some (py_min (pi0 * n * pk / (inject_Z (Z.of_nat k) + 1)) nx)).
Proof.
  induction m as [|m IH]; intros qv Hlen Hm.
  - exists qv. cbn. repeat split; [assumption|]. intros k Hk. lia.
  - rewrite seq_S, rev_app_distr. cbn [Nat.add rev app map fold_left].
    destruct (getitem_nat ps m) as [pm [Hpm Hgm]]; [lia|].
    destruct (getitem_nat qv (S m)) as [nx [Hnx Hgn]]; [lia|].
    unfold bh_step at 2. rewrite bind_Ok, Hgm, bind_Ok.
    replace (Z.of_nat m + 1)%Z with (Z.of_nat (S m)) by lia.
    rewrite Hgn, bind_Ok, setitem_nat by lia.
    set (v := py_min (pi0 * n * pm / (inject_Z (Z.of_nat m) + 1)) nx).
    destruct (IH (<[m := v]> qv)) as (qv' & Hrun & Hlen' & Hkeep & Hbelow).
    { now rewrite length_insert. }
    { lia. }
    exists qv'. split; [exact Hrun|]. split; [exact Hlen'|]. split.
    + intros j Hj. rewrite Hkeep by lia. apply list_lookup_insert_ne. lia.
    + intros k Hk. destruct (Nat.eq_dec k m) as [->|Hne].
      * exists pm, nx. split; [exact Hpm|]. split.
        -- rewrite Hkeep by lia. rewrite list_lookup_insert_ne by lia. exact Hnx.
        -- rewrite Hkeep by lia. apply list_lookup_insert_eq. lia.
      * apply Hbelow. lia.
Qed.

(** What "fdr" returns for 1 to 99 p-values: the values [qs], computed in
    the order of [argsort], each written back to the position its p-value
    came from. *)
Lemma p_adjust_fdr_values p n :
  wf_pvalues p -> (0 < length (values_of p) < 100)%nat ->
  let d := values_of p in
  let ps := take d (argsort d) in
  let m := count_used n (length d) in
  exists qs out,
    p_adjust p "fdr" n =
      Ok {| value := {| shape := shape_of p; data := out |}; stdout := [] |} /\
    length qs = length d /\ length out = length d /\
    (forall k i, argsort d !! k = Some i -> out !! i = qs !! k) /\
    (exists pl,
       ps !! (length d - 1)%nat = Some pl /\
       qs !! (length d - 1)%nat =
         Some (py_min (1 * m / inject_Z (Z.of_nat (length d)) * pl) 1)) /\
    (forall k, (S k < length d)%nat ->
       exists pk nx,
         ps !! k = Some pk /\ qs !! S k = Some nx /\
         qs !! k = Some (py_min (1 * m * pk / (inject_Z (Z.of_nat k) + 1)) nx)).
Proof.
  intros Hwf [Hpos Hlt] d ps m. fold d in Hpos, Hlt.
  enter_p_adjust. fold (as_array p). unfold ravel.
  rewrite as_array_shape, as_array_data.
  fold d. fold (count_used n (length d)). fold m. fold ps.
  destruct (Nat.ltb_spec (length d) 100); [|lia].
  change (Qltb 1 0) with false. cbv iota.
  assert (Hps : length ps = length d) by (unfold ps; now rewrite take_length, argsort_length).
  rewrite Hps.
  rewrite py_div_Ok by now apply inject_Z_nat_nonzero.
  set (c := 1 * m / inject_Z (Z.of_nat (length d))).
  set (qv := map (fun x => c * x) ps).
  assert (Hqv : length qv = length d) by (unfold qv; now rewrite length_map).
  destruct (lookup_lt_is_Some_2 ps (length d - 1)%nat) as [pl Hpl]; [lia|].
  assert (Hlast : qv !! (length qv - 1)%nat = Some (c * pl)).
  { unfold qv. rewrite length_map, Hps, list_lookup_fmap, Hpl. reflexivity. }
  destruct (getitem_last qv) as [lastv [Hl ->]]; [lia|].
  rewrite Hlast in Hl. injection Hl as <-.
  rewrite setitem_last by lia. cbn [mbind result_bind].
  unfold xrange_down.
  replace (Z.to_nat (Z.of_nat (length d) - 2 + 1)) with (length d - 1)%nat by lia.
  destruct (bh_loop_spec 1 m ps (length d - 1)%nat
              (<[(length qv - 1)%nat := py_min (c * pl) 1]> qv))
    as (qs & -> & Hqs & Hkeep & Hbelow).
  { now rewrite length_insert, Hqv, Hps. }
  { lia. }
  rewrite Hps in Hqs.
  rewrite reshape_wf; [|assumption|now rewrite put_length, repeat_length].
  exists qs. eexists. split; [reflexivity|].
  split; [exact Hqs|]. split; [now rewrite put_length, repeat_length|].
  split; [|split].
  - intros k i Hk.
    assert (Hi : (i < length d)%nat).
    { apply argsort_In, list_elem_of_In. eapply list_elem_of_lookup_2. exact Hk. }
    destruct (lookup_lt_is_Some_2 qs k) as [v Hv].
    { rewrite Hqs, <- (argsort_length d). now apply lookup_lt_Some in Hk. }
    rewrite Hv. apply (put_lookup _ _ _ k); try assumption.
    + apply argsort_NoDup.
    + now rewrite repeat_length, Hqs.
  - exists pl. split; [exact Hpl|]. rewrite Hkeep by lia.
    rewrite Hqv. apply list_lookup_insert_eq. lia.
  - intros k Hk. apply Hbelow. lia.
Qed.


Lemma py_min_le_l a b : py_min a b <= a.
Proof. rewrite py_min_Qmin. apply Q.le_min_l. Qed.

Lemma py_min_le_r a b : py_min a b <= b.
Proof. rewrite py_min_Qmin. apply Q.le_min_r. Qed.

Lemma py_min_glb a b c : c <= a -> c <= b -> c <= py_min a b.
Proof. intros Ha Hb. rewrite py_min_Qmin. now apply Q.min_glb. Qed.

Lemma inject_nat_nonneg k : 0 <= inject_Z (Z.of_nat k).
Proof. unfold Qle. cbn. lia. Qed.

Lemma inject_nat_le a b : (a <= b)%nat -> inject_Z (Z.of_nat a) <= inject_Z (Z.of_nat b).
Proof. intros H. rewrite <- Zle_Qle. lia. Qed.

Lemma inject_nat_S k : inject_Z (Z.of_nat (S k)) == inject_Z (Z.of_nat k) + 1.
Proof. rewrite Nat2Z.inj_succ. unfold Z.succ. rewrite inject_Z_plus. reflexivity. Qed.

Lemma bh_values_step m ps qs k x y :
  bh_values m ps qs -> qs !! k = Some x -> qs !! S k = Some y -> x <= y.
Proof.
  intros (Hlen & _ & Hrec) Hx Hy.
  destruct (Hrec k) as (pk & nx & _ & Hnx & Hk).
  { apply lookup_lt_Some in Hy. lia. }
  rewrite Hx in Hk. rewrite Hy in Hnx. injection Hk as ->. injection Hnx as <-.
  apply py_min_le_r.
Qed.

Lemma bh_values_monotone m ps qs a b x y :
  bh_values m ps qs -> (a <= b)%nat ->
  qs !! a = Some x -> qs !! b = Some y -> x <= y.
Proof.
  intros H Hab Hx Hy. replace b with (a + (b - a))%nat in Hy by lia.
  apply (chain_le qs (fun k u v => bh_values_step m ps qs k u v H) _ _ _ _ Hx Hy).
Qed.

Lemma bh_values_le_1 m ps qs k x :
  bh_values m ps qs -> qs !! k = Some x -> x <= 1.
Proof.
  intros H Hx. pose proof H as (Hlen & (pl & _ & Hlast) & Hrec).
  assert (Hk : (k < length ps)%nat) by (apply lookup_lt_Some in Hx; lia).
  apply Qle_trans with (py_min (1 * m / inject_Z (Z.of_nat (length ps)) * pl) 1).
  - apply (bh_values_monotone m ps qs k (length ps - 1)%nat); try assumption. lia.
  - apply py_min_le_r.
Qed.

(** Each value is at most the count times its p-value. *)
Lemma bh_values_le_scaled m ps qs k pk x :
  bh_values m ps qs -> 0 <= m -> ps !! k = Some pk -> 0 <= pk ->
  qs !! k = Some x -> x <= m * pk.
Proof.
  intros (Hlen & (pl & Hpl & Hlast) & Hrec) Hm Hpk Hpos Hx.
  assert (Hk : (k < length ps)%nat) by (now apply lookup_lt_Some in Hpk).
  assert (Hmp : 0 <= m * pk) by now apply Qmult_le_0_compat.
  destruct (Nat.eq_dec (S k) (length ps)) as [Hend|Hin].
  - replace (length ps - 1)%nat with k in * by lia.
    rewrite Hpk in Hpl. injection Hpl as <-. rewrite Hx in Hlast. injection Hlast as ->.
    eapply Qle_trans; [apply py_min_le_l|].
    assert (Hone : 1 <= inject_Z (Z.of_nat (length ps))).
    { rewrite <- Hend, inject_nat_S. pose proof (inject_nat_nonneg k). lra. }
    assert (Hdiv : 1 * m / inject_Z (Z.of_nat (length ps)) * pk ==
                   m * pk / inject_Z (Z.of_nat (length ps)))
      by (field; intros E; lra).
    rewrite Hdiv.
    apply Qle_shift_div_r; [lra|]. nra.
  - destruct (Hrec k) as (pk' & nx & Hpk' & _ & Hk'); [lia|].
    rewrite Hpk in Hpk'. injection Hpk' as <-. rewrite Hx in Hk'. injection Hk' as ->.
    eapply Qle_trans; [apply py_min_le_l|].
    pose proof (inject_nat_nonneg k) as Hk0.
    apply Qle_shift_div_r; [lra|]. nra.
Qed.

(** With a count of at least the number of p-values, each value is at
    least its p-value. *)
Lemma bh_values_ge_p m ps qs :
  bh_values m ps qs ->
  inject_Z (Z.of_nat (length ps)) <= m ->
  (forall k x, ps !! k = Some x -> 0 <= x <= 1) ->
  (forall k x y, ps !! k = Some x -> ps !! S k = Some y -> x <= y) ->
  forall d k pk x,
    (k + d = length ps - 1)%nat -> ps !! k = Some pk -> qs !! k = Some x -> pk <= x.
Proof.
  intros (Hlen & (pl & Hpl & Hlast) & Hrec) Hm Hrange Hsorted.
  induction d as [|d IH]; intros k pk x Hkd Hpk Hx.
  - assert (Hk : (k < length ps)%nat) by (now apply lookup_lt_Some in Hpk).
    assert (Hend : length ps = S k) by lia.
    replace (length ps - 1)%nat with k in * by lia.
    rewrite Hpk in Hpl. injection Hpl as <-. rewrite Hx in Hlast. injection Hlast as ->.
    destruct (Hrange k pk Hpk) as [H0 H1].
    assert (Hone : 1 <= inject_Z (Z.of_nat (length ps))).
    { rewrite Hend, inject_nat_S.
      pose proof (inject_nat_nonneg k). lra. }
    apply py_min_glb; [|assumption].
    assert (Hdiv : 1 * m / inject_Z (Z.of_nat (length ps)) * pk ==
                   m * pk / inject_Z (Z.of_nat (length ps)))
      by (field; intros E; lra).
    rewrite Hdiv.
    apply Qle_shift_div_l; [lra|]. nra.
  - destruct (Hrec k) as (pk' & nx & Hpk' & Hnx & Hk'); [lia|].
    rewrite Hpk in Hpk'. injection Hpk' as <-. rewrite Hx in Hk'. injection Hk' as ->.
    destruct (Hrange k pk Hpk) as [H0 H1].
    destruct (lookup_lt_is_Some_2 ps (S k)) as [pn Hpn]; [lia|].
    apply py_min_glb.
    + pose proof (inject_nat_nonneg k) as Hk0.
      assert (Hle : inject_Z (Z.of_nat k) + 1 <= m).
      { rewrite <- inject_nat_S. eapply Qle_trans; [|exact Hm]. apply inject_nat_le. lia. }
      apply Qle_shift_div_l; [lra|]. nra.
    + apply Qle_trans with pn; [now apply (Hsorted k)|].
      apply (IH (S k)); [lia|assumption|assumption].
Qed.

(** Each value is at most its own raw value m * p[k] / (k + 1). *)
Lemma bh_values_le_raw m ps qs k pk x :
  bh_values m ps qs -> ps !! k = Some pk -> qs !! k = Some x ->
  x <= m * pk / (inject_Z (Z.of_nat k) + 1).
Proof.
  intros (Hlen & (pl & Hpl & Hlast) & Hrec) Hpk Hx.
  assert (Hk : (k < length ps)%nat) by (now apply lookup_lt_Some in Hpk).
  pose proof (inject_nat_nonneg k) as Hk0.
  destruct (Nat.eq_dec (S k) (length ps)) as [Hend|Hin].
  - replace (length ps - 1)%nat with k in * by lia.
    rewrite Hpk in Hpl. injection Hpl as <-. rewrite Hx in Hlast. injection Hlast as ->.
    eapply Qle_trans; [apply py_min_le_l|].
    rewrite <- Hend, inject_nat_S.
    assert (Hdiv : 1 * m / (inject_Z (Z.of_nat k) + 1) * pk ==
                   m * pk / (inject_Z (Z.of_nat k) + 1))
      by (field; intros E; lra).
    rewrite Hdiv. apply Qle_refl.
  - destruct (Hrec k) as (pk' & nx & Hpk' & _ & Hk'); [lia|].
    rewrite Hpk in Hpk'. injection Hpk' as <-. rewrite Hx in Hk'. injection Hk' as ->.
    eapply Qle_trans; [apply py_min_le_l|].
    assert (Hdiv : 1 * m * pk / (inject_Z (Z.of_nat k) + 1) ==
                   m * pk / (inject_Z (Z.of_nat k) + 1))
      by (field; intros E; lra).
    rewrite Hdiv. apply Qle_refl.
Qed.

(** Equal p-values get equal values, when the p-values are not negative. *)
Lemma bh_values_ties m ps qs :
  bh_values m ps qs -> 0 <= m ->
  (forall k x, ps !! k = Some x -> 0 <= x) ->
  (forall k x y, ps !! k = Some x -> ps !! S k = Some y -> x <= y) ->
  forall d a pa pb x y,
    ps !! a = Some pa -> ps !! (a + d)%nat = Some pb -> pa == pb ->
    qs !! a = Some x -> qs !! (a + d)%nat = Some y -> x == y.
Proof.
  intros H Hm Hpos Hsorted. pose proof H as (Hlen & _ & Hrec).
  induction d as [|d IH]; intros a pa pb x y Hpa Hpb Heq Hx Hy.
  - rewrite Nat.add_0_r in Hy. rewrite Hx in Hy. injection Hy as ->. reflexivity.
  - replace (a + S d)%nat with (S a + d)%nat in Hpb, Hy by lia.
    assert (Ha : (S a < length ps)%nat) by (apply lookup_lt_Some in Hpb; lia).
    destruct (Hrec a Ha) as (pa' & z & Hpa' & Hz & Hxa).
    rewrite Hpa in Hpa'. injection Hpa' as <-. rewrite Hx in Hxa. injection Hxa as ->.
    destruct (lookup_lt_is_Some_2 ps (S a) Ha) as [pz Hpz].
    assert (Hle1 : pa <= pz) by now apply (Hsorted a).
    assert (Hle2 : pz <= pb).
    { apply (chain_le ps Hsorted d (S a)); assumption. }
    assert (Hpz_eq : pz == pb) by (apply Qle_antisym; [assumption|lra]).
    rewrite <- (IH (S a) pz pb z y Hpz Hpb Hpz_eq Hz Hy).
    rewrite py_min_Qmin. apply Q.min_r.
    eapply Qle_trans; [apply (bh_values_le_raw m ps qs (S a) pz z H Hpz Hz)|].
    pose proof (inject_nat_nonneg a) as Ha0. pose proof (Hpos _ _ Hpa) as Hpa0.
    assert (Hmp : 0 <= m * pa) by now apply Qmult_le_0_compat.
    assert (Hraw : 1 * m * pa / (inject_Z (Z.of_nat a) + 1) ==
                   m * pa / (inject_Z (Z.of_nat a) + 1))
      by (field; intros E; lra).
    rewrite Hraw, inject_nat_S.
    assert (Hpz_pa : pz == pa) by lra. rewrite Hpz_pa.
    apply Qle_shift_div_l; [lra|].
    assert (Hq : m * pa / (inject_Z (Z.of_nat a) + 1 + 1) * (inject_Z (Z.of_nat a) + 1)
                 == m * pa * ((inject_Z (Z.of_nat a) + 1) / (inject_Z (Z.of_nat a) + 1 + 1)))
      by (field; intros E; lra).
    rewrite Hq.
    assert (Hfrac : (inject_Z (Z.of_nat a) + 1) / (inject_Z (Z.of_nat a) + 1 + 1) <= 1)
      by (apply Qle_shift_div_r; lra).
    nra.
Qed.

Lemma count_used_nonneg n len : 0 <= count_used n len.
Proof.
  unfold count_used, py_gt0. destruct n as [v|]; cbn.
  - destruct (Qltb 0 v) eqn:E.
    + apply Qltb_spec in E. lra.
    + pose proof (inject_nat_nonneg len). lra.
  - pose proof (inject_nat_nonneg len). lra.
Qed.

(** What "fdr" returns for 1 to 99 p-values, read position by position:
    the value at a position is the value computed for its p-value at
    some place of the sorted order. *)
Lemma p_adjust_fdr_sorted p n :
  wf_pvalues p -> (0 < length (values_of p) < 100)%nat ->
  let d := values_of p in
  let ps := take d (argsort d) in
  exists qs out,
    p_adjust p "fdr" n =
      Ok {| value := {| shape := shape_of p; data := out |}; stdout := [] |} /\
    length out = length d /\
    bh_values (count_used n (length d)) ps qs /\
    (forall i x u, d !! i = Some x -> out !! i = Some u ->
       exists k, ps !! k = Some x /\ qs !! k = Some u).
Proof.
  intros Hwf Hsize d ps.
  destruct (p_adjust_fdr_values p n Hwf Hsize)
    as (qs & out & Hrun & Hqs & Hout & Hpos & Hlast & Hrec).
  fold d in Hrun, Hqs, Hout, Hpos, Hlast, Hrec. fold ps in Hlast, Hrec.
  assert (Hps : length ps = length d) by (unfold ps; now rewrite take_length, argsort_length).
  exists qs, out. split; [exact Hrun|]. split; [exact Hout|]. split.
  - unfold bh_values. rewrite Hps. repeat split; assumption.
  - intros i x u Hx Hu.
    destruct (argsort_position d i) as [k Hk]; [now apply lookup_lt_Some in Hx|].
    exists k. split.
    + now apply (take_lookup d (argsort d) k i).
    + rewrite <- (Hpos k i Hk). exact Hu.
Qed.

Lemma sorted_adjacent p k x y :
  take p (argsort p) !! k = Some x -> take p (argsort p) !! S k = Some y -> x <= y.
Proof. apply take_argsort_sorted. lia. Qed.

(** X1. With method "fdr" on 1 to 99 p-values, no adjusted value
    exceeds 1, whatever the p-values and the count [n] are. *)
Theorem fdr_at_most_one (p : pvalues) (n : option Q) :
  wf_pvalues p -> (0 < length (values_of p) < 100)%nat ->
  exists q,
    p_adjust p "fdr" n =
      Ok {| value := {| shape := shape_of p; data := q |}; stdout := [] |} /\
    Forall (fun u => u <= 1) q.
Proof.
  intros Hwf Hsize.
  destruct (p_adjust_fdr_sorted p n Hwf Hsize) as (qs & out & Hrun & Hlen & Hbh & Hpos).
  exists out. split; [exact Hrun|].
  apply Forall_lookup. intros i u Hu.
  destruct (lookup_lt_is_Some_2 (values_of p) i) as [x Hx].
  { rewrite <- Hlen. now apply lookup_lt_Some in Hu. }
  destruct (Hpos i x u Hx Hu) as (k & _ & Hk).
  exact (bh_values_le_1 _ _ _ _ _ Hbh Hk).
Qed.

(** X2. With method "fdr" on 1 to 99 p-values, a smaller p-value never
    gets a larger adjusted value. *)
Theorem fdr_preserves_order (p : pvalues) (n : option Q) :
  wf_pvalues p -> (0 < length (values_of p) < 100)%nat ->
  exists q,
    p_adjust p "fdr" n =
      Ok {| value := {| shape := shape_of p; data := q |}; stdout := [] |} /\
    forall i j x y u v,
      values_of p !! i = Some x -> values_of p !! j = Some y ->
      q !! i = Some u -> q !! j = Some v ->
      x < y -> u <= v.
Proof.
  intros Hwf Hsize.
  destruct (p_adjust_fdr_sorted p n Hwf Hsize) as (qs & out & Hrun & Hlen & Hbh & Hpos).
  exists out. split; [exact Hrun|].
  intros i j x y u v Hx Hy Hu Hv Hxy.
  destruct (Hpos i x u Hx Hu) as (a & Hpa & Hqa).
  destruct (Hpos j y v Hy Hv) as (b & Hpb & Hqb).
  destruct (Nat.le_gt_cases a b) as [Hab|Hba].
  - exact (bh_values_monotone _ _ _ a b u v Hbh Hab Hqa Hqb).
  - pose proof (take_argsort_sorted _ b a y x Hba Hpb Hpa). lra.
Qed.

(** X3. With method "fdr" on 1 to 99 p-values, none of them negative,
    equal p-values get equal adjusted values: the result does not depend
    on the order in which the sort leaves equal p-values. *)
Theorem fdr_ties_equal (p : pvalues) (n : option Q) :
  wf_pvalues p -> (0 < length (values_of p) < 100)%nat ->
  Forall (fun x => 0 <= x) (values_of p) ->
  exists q,
    p_adjust p "fdr" n =
      Ok {| value := {| shape := shape_of p; data := q |}; stdout := [] |} /\
    forall i j x y u v,
      values_of p !! i = Some x -> values_of p !! j = Some y ->
      q !! i = Some u -> q !! j = Some v ->
      x == y -> u == v.
Proof.
  intros Hwf Hsize Hnonneg.
  destruct (p_adjust_fdr_sorted p n Hwf Hsize) as (qs & out & Hrun & Hlen & Hbh & Hpos).
  exists out. split; [exact Hrun|].
  assert (Hps0 : forall k x, take (values_of p) (argsort (values_of p)) !! k = Some x -> 0 <= x).
  { intros k x Hk. unfold take in Hk. rewrite list_lookup_fmap in Hk.
    destruct (argsort (values_of p) !! k) as [i|] eqn:Ei; [|discriminate].
    cbn in Hk. injection Hk as <-.
    assert (Hi : (i < length (values_of p))%nat).
    { apply argsort_In, list_elem_of_In. eapply list_elem_of_lookup_2. exact Ei. }
    destruct (lookup_lt_is_Some_2 _ _ Hi) as [x Hx].
    rewrite (nth_lookup_Some _ _ 0 _ Hx).
    rewrite Forall_lookup in Hnonneg. exact (Hnonneg i x Hx). }
  assert (Hties : forall a b pa pb u v,
            (a <= b)%nat ->
            take (values_of p) (argsort (values_of p)) !! a = Some pa ->
            take (values_of p) (argsort (values_of p)) !! b = Some pb ->
            pa == pb -> qs !! a = Some u -> qs !! b = Some v -> u == v).
  { intros a b pa pb u v Hab Hpa Hpb Heq Hu Hv.
    replace b with (a + (b - a))%nat in Hpb, Hv by lia.
    exact (bh_values_ties _ _ _ Hbh (count_used_nonneg _ _) Hps0
             (sorted_adjacent (values_of p)) _ _ _ _ _ _ Hpa Hpb Heq Hu Hv). }
  intros i j x y u v Hx Hy Hu Hv Hxy.
  destruct (Hpos i x u Hx Hu) as (a & Hpa & Hqa).
  destruct (Hpos j y v Hy Hv) as (b & Hpb & Hqb).
  destruct (Nat.le_gt_cases a b) as [Hab|Hba].
  - exact (Hties a b x y u v Hab Hpa Hpb Hxy Hqa Hqb).
  - symmetry. apply (Hties b a y x v u); try assumption; [lia|now symmetry].
Qed.

(** X4. With method "fdr" on 1 to 99 p-values in [0, 1] and a count
    that is left out or at least the number of p-values, every adjusted
    value is at least its p-value. *)
Theorem fdr_at_least_p (p : pvalues) (n : option Q) :
  wf_pvalues p -> (0 < length (values_of p) < 100)%nat ->
  Forall (fun x => 0 <= x <= 1) (values_of p) ->
  inject_Z (Z.of_nat (length (values_of p))) <= comparisons n (length (values_of p)) ->
  exists q,
    p_adjust p "fdr" n =
      Ok {| value := {| shape := shape_of p; data := q |}; stdout := [] |} /\
    Forall2 Qle (values_of p) q.
Proof.
  intros Hwf Hsize Hrange Hcount.
  destruct (p_adjust_fdr_sorted p n Hwf Hsize) as (qs & out & Hrun & Hlen & Hbh & Hpos).
  exists out. split; [exact Hrun|].
  set (d := values_of p) in *. set (ps := take d (argsort d)) in *.
  assert (Hps : length ps = length d) by (unfold ps; now rewrite take_length, argsort_length).
  assert (Hps01 : forall k x, ps !! k = Some x -> 0 <= x <= 1).
  { intros k x Hk. unfold ps, take in Hk. rewrite list_lookup_fmap in Hk.
    destruct (argsort d !! k) as [i|] eqn:Ei; [|discriminate].
    cbn in Hk. injection Hk as <-.
    assert (Hi : (i < length d)%nat).
    { apply argsort_In, list_elem_of_In. eapply list_elem_of_lookup_2. exact Ei. }
    destruct (lookup_lt_is_Some_2 _ _ Hi) as [x Hx].
    rewrite (nth_lookup_Some _ _ 0 _ Hx).
    rewrite Forall_lookup in Hrange. exact (Hrange i x Hx). }
  apply Forall2_same_length_lookup. split; [now rewrite Hlen|].
  intros i x u Hx Hu.
  destruct (Hpos i x u Hx Hu) as (k & Hpk & Hqk).
  apply (bh_values_ge_p _ _ _ Hbh) with (d := (length ps - 1 - k)%nat) (k := k);
    try assumption.
  - rewrite Hps, count_used_comparisons. exact Hcount.
  - apply sorted_adjacent.
  - apply lookup_lt_Some in Hpk. lia.
Qed.

(** X5. On 1 to 99 p-values, none of them negative, and the same count,
    no value adjusted with "fdr" exceeds the value adjusted with
    "bonferroni". *)
Theorem fdr_below_bonferroni (p : pvalues) (n : option Q) :
  wf_pvalues p -> (0 < length (values_of p) < 100)%nat ->
  Forall (fun x => 0 <= x) (values_of p) ->
  exists q b,
    p_adjust p "fdr" n =
      Ok {| value := {| shape := shape_of p; data := q |}; stdout := [] |} /\
    p_adjust p "bonferroni" n =
      Ok {| value := {| shape := shape_of p; data := b |}; stdout := [] |} /\
    Forall2 Qle q b.
Proof.
  intros Hwf Hsize Hnonneg.
  destruct (p_adjust_fdr_sorted p n Hwf Hsize) as (qs & out & Hrun & Hlen & Hbh & Hpos).
  exists out. eexists. split; [exact Hrun|].
  split; [apply (p_adjust_bonferroni tck splrep splev p n Hwf)|].
  apply Forall2_same_length_lookup. split; [now rewrite length_map|].
  intros i u w Hu Hw. rewrite list_lookup_fmap in Hw.
  destruct (values_of p !! i) as [x|] eqn:Hx; [|discriminate].
  cbn in Hw. injection Hw as <-.
  destruct (Hpos i x u Hx Hu) as (k & Hpk & Hqk).
  rewrite clip_Qmin. apply Q.min_glb.
  - exact (bh_values_le_1 _ _ _ _ _ Hbh Hqk).
  - apply (bh_values_le_scaled _ _ _ k x u Hbh); try assumption.
    + apply count_used_nonneg.
    + rewrite Forall_lookup in Hnonneg. exact (Hnonneg i x Hx).
Qed.

(** X6. The method is read without regard to case, and "bh" is another
    name of "fdr": two spellings that agree in lower case give the same
    outcome, and a spelling of "bh" gives the outcome of "fdr". *)
Theorem method_spelling (p : pvalues) (n : option Q) (m1 m2 : string) :
  (lower m1 = lower m2 -> p_adjust p m1 n = p_adjust p m2 n) /\
  (lower m1 = "bh" -> p_adjust p m1 n = p_adjust p "fdr" n).
Proof.
  split; intros H; apply p_adjust_canonical; unfold canonical; now rewrite H.
Qed.

(** X7. The warning of p_adjust.py:117 is never printed: every call of
    [p_adjust] that returns has printed nothing. *)
Theorem p_adjust_prints_nothing (p : pvalues) (method : string) (n : option Q)
    (r : returned) :
  wf_pvalues p -> p_adjust p method n = Ok r -> stdout r = [].
Proof.
  intros Hwf Hr.
  destruct (str_in (canonical method) p_adjust_methods) eqn:Hm.
  2:{ rewrite (p_adjust_unknown _ _ _ _ _ _ Hm) in Hr. discriminate. }
  destruct (p_adjust_known tck splrep splev p method n Hm) as [E|[E|E]];
    rewrite E in Hr; clear E.
  - destruct (Nat.lt_ge_cases (length (values_of p)) 100) as [Hlt|Hge].
    + destruct (values_of p) as [|x l] eqn:Hv.
      { rewrite p_adjust_fdr_empty in Hr by assumption. discriminate. }
      destruct (p_adjust_fdr_small tck splrep splev p n Hwf) as [q [Hq _]].
      { rewrite Hv. cbn [length] in *. lia. }
      rewrite Hq in Hr. now injection Hr as <-.
    + rewrite p_adjust_fdr_large in Hr by assumption. discriminate.
  - rewrite p_adjust_bonferroni in Hr by assumption. now injection Hr as <-.
  - rewrite p_adjust_none in Hr. now injection Hr as <-.
Qed.

(** X15. A count that is not above 0 is read as no count at all: the
    call behaves as with [n] left out, for every method and input. *)
Theorem count_not_above_zero_is_default (p : pvalues) (method : string) (n : Q) :
  n <= 0 -> p_adjust p method (Some n) = p_adjust p method None.
Proof.
  intros Hn. unfold PAdjust.p_adjust. cbv zeta. unfold py_gt0.
  rewrite (proj2 (Qltb_false 0 n) Hn). reflexivity.
Qed.

End PAdjustValues.

(** ** More on the binomial distribution function *)

Section BinomialRange.
Import RateRatio.

Lemma qpow_nonneg q e : 0 <= q -> 0 <= qpow q e.
Proof.
  intros H. induction e as [|e IH]; cbn [qpow]; [lra|].
  now apply Qmult_le_0_compat.
Qed.

Lemma dbinom_nonneg i n p : 0 <= p <= 1 -> 0 <= dbinom i n p.
Proof.
  intros [H0 H1]. unfold dbinom.
  repeat apply Qmult_le_0_compat.
  - apply inject_nat_nonneg.
  - now apply qpow_nonneg.
  - apply qpow_nonneg. lra.
Qed.

Lemma sum_upto_nonneg f k : (forall i, 0 <= f i) -> 0 <= sum_upto f k.
Proof.
  intros H. induction k as [|k IH]; cbn [sum_upto]; [apply H|].
  pose proof (H (S k)). lra.
Qed.

Lemma sum_upto_mono f k n :
  (forall i, 0 <= f i) -> (k <= n)%nat -> sum_upto f k <= sum_upto f n.
Proof.
  intros H Hkn. induction Hkn as [|n Hkn IH]; [apply Qle_refl|].
  cbn [sum_upto]. pose proof (H (S n)). lra.
Qed.

(** The distribution function takes its values in [0, 1]. *)
Lemma pbinom_range k n p : 0 <= p <= 1 -> 0 <= pbinom k n p <= 1.
Proof.
  intros Hp. unfold pbinom. destruct (k <? 0)%Z; [lra|].
  assert (Hf : forall i, 0 <= dbinom i (Z.to_nat n) p)
    by (intros i; now apply dbinom_nonneg).
  split.
  - now apply sum_upto_nonneg.
  - rewrite <- (dbinom_total p (Z.to_nat n)).
    apply sum_upto_mono; [assumption|lia].
Qed.

(** One success more adds the probability of exactly that many. *)
Lemma pbinom_step a b p :
  (0 <= a)%Z -> (0 <= b)%Z ->
  pbinom a (a + b) p ==
  pbinom (a - 1) (a + b) p + dbinom (Z.to_nat a) (Z.to_nat (a + b)) p.
Proof.
  intros Ha Hb. rewrite (pbinom_below a b p Ha Hb).
  unfold pbinom. destruct (Z.ltb_spec a 0); [lia|].
  replace (Z.min a (a + b)) with a by lia.
  apply sum_upto_below.
Qed.

End BinomialRange.

(** ** More on rateratio.test *)

Section RateRatioMore.
Import RateRatio.
Variable qbeta : Q -> Z -> Z -> Q.
Local Abbreviation test := (RateRatio.test qbeta).

Lemma match_arg_idempotent alt : match_arg (match_arg alt) = match_arg alt.
Proof.
  unfold match_arg at 2 3.
  destruct (alt =? "t") eqn:Et; [reflexivity|].
  destruct (alt =? "two_sided") eqn:Eu; [reflexivity|].
  destruct (alt =? "g") eqn:Eg; [reflexivity|].
  destruct (alt =? "l") eqn:El; [reflexivity|].
  cbn [orb]. unfold match_arg. now rewrite Et, Eu, Eg, El.
Qed.

(** X8. [test] reads its alternative through the shorthands only: "t"
    and "two_sided" stand for "two.sided", "g" for "greater" and "l" for
    "less", with the same outcome (result or exception) on every input. *)
Theorem alternative_shorthand (x : list Z) (n : list Q) (RR : Q) (alt : string)
    (c : Q) :
  test x n RR alt c = test x n RR (match_arg alt) c /\
  test x n RR "t" c = test x n RR "two.sided" c /\
  test x n RR "two_sided" c = test x n RR "two.sided" c /\
  test x n RR "g" c = test x n RR "greater" c /\
  test x n RR "l" c = test x n RR "less" c.
Proof.
  assert (H : forall a, test x n RR a c = test x n RR (match_arg a) c).
  { intros a. unfold RateRatio.test. cbv zeta.
    now rewrite match_arg_idempotent. }
  split; [apply H|]. repeat split; apply H.
Qed.

Lemma null_proportion_range n0 n1 RR :
  0 < n0 -> 0 < n1 -> 0 < RR -> 0 <= 1 * n0 * RR / (n0 * RR + n1) <= 1.
Proof.
  intros H0 H1 HR.
  assert (0 < n0 * RR) by now apply Qmult_lt_0_compat.
  split.
  - apply Qle_shift_div_l; lra.
  - apply Qle_shift_div_r; lra.
Qed.

Lemma computed_p_value_range x0 x1 n0 n1 RR alt :
  0 < n0 -> 0 < n1 -> 0 < RR ->
  0 <= computed_p_value x0 x1 n0 n1 RR alt <= 1.
Proof.
  intros H0 H1 HR. unfold computed_p_value. cbv zeta.
  pose proof (null_proportion_range n0 n1 RR H0 H1 HR) as Hp.
  pose proof (pbinom_range x0 (x1 + x0) _ Hp) as Hl.
  pose proof (pbinom_range (x0 - 1) (x0 + x1) _ Hp) as Hg.
  destruct (alt =? "less"); [exact Hl|].
  destruct (alt =? "greater"); [lra|].
  split.
  - apply py_min_glb; [lra|].
    assert (0 <= py_min (pbinom x0 (x1 + x0) (1 * n0 * RR / (n0 * RR + n1)))
                   (1 - pbinom (x0 - 1) (x0 + x1) (1 * n0 * RR / (n0 * RR + n1))))
      by (apply py_min_glb; lra).
    lra.
  - apply py_min_le_l.
Qed.

(** X9. For valid arguments with a second count above 0, the p-value
    that [test] returns lies in [0, 1], under every alternative. *)
Theorem p_value_in_unit_interval (x0 x1 : Z) (n0 n1 RR : Q) (alt : string) (c : Q) :
  valid_args x0 x1 n0 n1 RR alt c -> (0 < x1)%Z ->
  exists r, test [x0; x1] [n0; n1] RR alt c = Ok r /\ 0 <= p_value r <= 1.
Proof.
  intros Hvalid Hpos. eexists. split; [now apply test_returns|].
  cbn [p_value]. destruct Hvalid as (_ & _ & H0 & H1 & HR & _).
  now apply computed_p_value_range.
Qed.

(** X10. On the same valid data, the p-values of "less" and of
    "greater" add up to 1 plus the probability of the observed first
    count, so to at least 1. *)
Theorem one_sided_p_values_sum (x0 x1 : Z) (n0 n1 RR c c' : Q) :
  (0 <= x0)%Z -> (0 < x1)%Z -> 0 < n0 -> 0 < n1 -> 0 < RR ->
  0 < c < 1 -> 0 < c' < 1 ->
  exists r r',
    test [x0; x1] [n0; n1] RR "less" c = Ok r /\
    test [x0; x1] [n0; n1] RR "greater" c' = Ok r' /\
    p_value r + p_value r' ==
      1 + dbinom (Z.to_nat x0) (Z.to_nat (x0 + x1)) (null_proportion n0 n1 RR) /\
    1 <= p_value r + p_value r'.
Proof.
  intros Hx0 Hx1 Hn0 Hn1 HRR Hc Hc'.
  do 2 eexists. split; [|split].
  - apply test_returns; [|assumption].
    repeat split; try tauto; try lia. right; now left.
  - apply test_returns; [|assumption].
    repeat split; try tauto; try lia. right; right; now left.
  - cbn [p_value]. unfold computed_p_value. cbn [match_arg String.eqb orb]. cbv zeta.
    run_strings. cbv iota.
    assert (Hp : 1 * n0 * RR / (n0 * RR + n1) == null_proportion n0 n1 RR).
    { unfold null_proportion, Qdiv. ring. }
    rewrite (Z.add_comm x1 x0).
    rewrite (pbinom_compat x0 (x0 + x1) _ _ Hp).
    rewrite (pbinom_compat (x0 - 1) (x0 + x1) _ _ Hp).
    assert (Hstep := pbinom_step x0 x1 (null_proportion n0 n1 RR) Hx0 (Z.lt_le_incl _ _ Hx1)).
    assert (Hd : 0 <= dbinom (Z.to_nat x0) (Z.to_nat (x0 + x1)) (null_proportion n0 n1 RR)).
    { apply dbinom_nonneg. rewrite <- Hp. now apply null_proportion_range. }
    split; [rewrite Hstep; ring|]. rewrite Hstep. lra.
Qed.


(** X11. The confidence level and the Beta quantile function reach
    the interval only: on valid arguments with a second count above 0, two
    calls that differ in them alone return the same p-value, estimate, null
    value and alternative, and each interval ends with its own level. *)
Theorem conf_level_reaches_interval_only (qbeta' : Q -> Z -> Z -> Q)
    (x0 x1 : Z) (n0 n1 RR : Q) (alt : string) (c c' : Q) :
  valid_args x0 x1 n0 n1 RR alt c -> 0 < c' < 1 -> (0 < x1)%Z ->
  exists r r' lo hi lo' hi',
    test [x0; x1] [n0; n1] RR alt c = Ok r /\
    RateRatio.test qbeta' [x0; x1] [n0; n1] RR alt c' = Ok r' /\
    p_value r = p_value r' /\ estimate r = estimate r' /\
    null_value r = null_value r' /\ alternative r = alternative r' /\
    conf_int r = [lo; hi; Fin c] /\ conf_int r' = [lo'; hi'; Fin c'].
Proof.
  intros Hvalid Hc' Hpos.
  assert (Hvalid' : valid_args x0 x1 n0 n1 RR alt c').
  { destruct Hvalid as (? & ? & ? & ? & ? & ? & _). repeat split; tauto. }
  rewrite (test_returns qbeta _ _ _ _ _ _ _ Hvalid Hpos).
  rewrite (test_returns qbeta' _ _ _ _ _ _ _ Hvalid' Hpos).
  destruct Hvalid as (_ & _ & _ & _ & _ & Halt & _).
  unfold computed_interval.
  destruct Halt as [<-|[<-|[<-|[]]]]; run_strings; cbv iota; cbn [app];
    do 6 eexists; repeat split.
Qed.

Lemma rate_transform_zero n0 n1 :
  0 < n0 -> xfloat_eq (rate_transform 0 n0 n1) (Fin 0).
Proof.
  intros H0. unfold rate_transform, np_div.
  destruct (Qeq_bool (n0 * (1 - 0)) 0) eqn:E.
  - apply Qeq_bool_iff in E. lra.
  - cbn [xfloat_eq]. unfold Qdiv. ring.
Qed.

(** X12. With a first count of 0 (and a second above 0), the lower
    bound of the interval is 0 under every alternative, found without
    the Beta quantile function; the estimated rate ratio is 0; the p-value
    is 1 under "greater" and (n1 / (n0*RR + n1)) ^ x1 under "less". *)
Theorem zero_first_count (x1 : Z) (n0 n1 RR : Q) (alt : string) (c : Q) :
  valid_args 0 x1 n0 n1 RR alt c -> (0 < x1)%Z ->
  exists r lo hi ratio r1 r2,
    test [0%Z; x1] [n0; n1] RR alt c = Ok r /\
    conf_int r = [lo; hi; Fin c] /\ xfloat_eq lo (Fin 0) /\
    estimate r = [ratio; r1; r2] /\ ratio == 0 /\
    (match_arg alt = "greater" -> p_value r == 1) /\
    (match_arg alt = "less" ->
       p_value r == qpow (n1 / (n0 * RR + n1)) (Z.to_nat x1)).
Proof.
  intros Hvalid Hpos.
  rewrite (test_returns qbeta _ _ _ _ _ _ _ Hvalid Hpos).
  destruct Hvalid as (_ & _ & H0 & H1 & HR & Halt & _).
  assert (Hlo : forall a, xfloat_eq
            (rate_transform (lower_proportion qbeta 0 (0 + x1) a) n0 n1) (Fin 0)).
  { intros a. unfold lower_proportion. change (0 =? 0)%Z with true. cbv iota.
    now apply rate_transform_zero. }
  assert (Hratio : 1 * inject_Z 0 / n0 / (1 * inject_Z x1 / n1) == 0).
  { unfold Qdiv. change (inject_Z 0) with 0. ring. }
  assert (Hless : computed_p_value 0 x1 n0 n1 RR "less" ==
                  qpow (n1 / (n0 * RR + n1)) (Z.to_nat x1)).
  { unfold computed_p_value. cbv zeta. run_strings. cbv iota.
    unfold pbinom. change (0 <? 0)%Z with false. cbv iota.
    replace (Z.to_nat (Z.min 0 (x1 + 0))) with O by lia.
    replace (Z.to_nat (x1 + 0)) with (Z.to_nat x1) by lia.
    cbn [sum_upto]. unfold dbinom. rewrite comb_0_r, Nat.sub_0_r. cbn [qpow].
    change (inject_Z (Z.of_nat 1)) with 1.
    rewrite (qpow_compat (1 - 1 * n0 * RR / (n0 * RR + n1)) (n1 / (n0 * RR + n1))).
    - ring.
    - field. now apply pRR_divisor. }
  assert (Hgreater : computed_p_value 0 x1 n0 n1 RR "greater" == 1).
  { unfold computed_p_value. cbv zeta. run_strings. cbv iota.
    unfold pbinom. change (0 - 1 <? 0)%Z with true. cbv iota. ring. }
  unfold computed_interval. cbv zeta. cbn [p_value conf_int estimate].
  destruct Halt as [E|[E|[E|[]]]]; rewrite <- E; run_strings; cbv iota; cbn [app];
    do 6 eexists;
    (split; [reflexivity|]); (split; [reflexivity|]);
    (split; [first [exact (Hlo _) | cbn; reflexivity]|]);
    (split; [reflexivity|]); (split; [exact Hratio|]);
    split; intros Ealt; try discriminate; assumption.
Qed.

(** X13. Exchanging the two groups and inverting the null rate ratio
    leaves the two-sided p-value as it is, for counts above 0. *)
Theorem two_sided_p_value_symmetry (x0 x1 : Z) (n0 n1 RR c c' : Q) :
  (0 < x0)%Z -> (0 < x1)%Z -> 0 < n0 -> 0 < n1 -> 0 < RR ->
  0 < c < 1 -> 0 < c' < 1 ->
  exists r r',
    test [x0; x1] [n0; n1] RR "two.sided" c = Ok r /\
    test [x1; x0] [n1; n0] (1 / RR) "two.sided" c' = Ok r' /\
    p_value r == p_value r'.
Proof.
  intros Hx0 Hx1 Hn0 Hn1 HRR Hc Hc'.
  do 2 eexists. split; [|split].
  - apply test_returns; [|assumption].
    repeat split; try tauto; try lia. now left.
  - apply test_returns; [|assumption].
    apply valid_swapped; try tauto; try lia. now left.
  - cbn [p_value].
    pose proof (p_value_less_greater x0 x1 n0 n1 RR
                  (Z.lt_le_incl _ _ Hx0) (Z.lt_le_incl _ _ Hx1) Hn0 Hn1 HRR) as Hlg.
    pose proof (p_value_greater_less x0 x1 n0 n1 RR
                  (Z.lt_le_incl _ _ Hx0) (Z.lt_le_incl _ _ Hx1) Hn0 Hn1 HRR) as Hgl.
    unfold computed_p_value in *. cbv zeta in *.
    change (match_arg "two.sided") with "two.sided".
    revert Hlg Hgl. run_strings. cbv iota. intros Hlg Hgl.
    etransitivity; [apply py_min_Qmin|]. symmetry.
    etransitivity; [apply py_min_Qmin|]. symmetry.
    apply Q.min_compat; [reflexivity|].
    apply Qmult_comp; [reflexivity|].
    etransitivity; [apply py_min_Qmin|]. symmetry.
    etransitivity; [apply py_min_Qmin|]. symmetry.
    rewrite Hlg, Hgl. apply Q.min_comm.
Qed.

End RateRatioMore.

(** ** The report *)

Section ReportFacts.
Import RateRatio.
Variable qbeta : Q -> Z -> Z -> Q.
Variable str_number : xfloat -> string.
Variable data_name_text : list Z * list Q * Q -> string.

(** X14. A result of [test] can always be printed: on valid arguments
    with a second count above 0, [__repr__] and [__str__] of the result
    return their text.  A record as [htest] constructs it, before [test]
    has filled it in, cannot: they raise IndexError at conf_int[-1]. *)
Theorem htest_prints_once_filled :
  (forall x0 x1 n0 n1 RR alt c,
     valid_args x0 x1 n0 n1 RR alt c -> (0 < x1)%Z ->
     exists r text,
       RateRatio.test qbeta [x0; x1] [n0; n1] RR alt c = Ok r /\
       htest_repr str_number data_name_text r = Ok text /\
       htest_str str_number data_name_text r = Ok text) /\
  (forall x n RR alt,
     htest_repr str_number data_name_text (htest_init x n RR alt) = Raise IndexError /\
     htest_str str_number data_name_text (htest_init x n RR alt) = Raise IndexError).
Proof.
  split.
  - intros x0 x1 n0 n1 RR alt c Hvalid Hpos.
    rewrite (test_returns qbeta _ _ _ _ _ _ _ Hvalid Hpos).
    destruct Hvalid as (_ & _ & _ & _ & _ & Halt & _).
    unfold htest_str, htest_repr, computed_interval.
    cbn [conf_int estimate].
    destruct Halt as [<-|[<-|[<-|[]]]]; run_strings; cbv iota; cbn [app];
      do 2 eexists; (split; [reflexivity|]); split; reflexivity.
  - intros x n RR alt. split; reflexivity.
Qed.

End ReportFacts.

(** ** Closed instances of the further properties *)

Lemma example_small :
  PAdjust.wf_pvalues (PAdjust.PyList example_ties) /\
  (0 < length (PAdjust.values_of (PAdjust.PyList example_ties)) < 100)%nat.
Proof. split; [exact I|unfold example_ties; cbn; lia]. Defined.

Lemma example_nonneg : Forall (fun x => 0 <= x) example_ties.
Proof. unfold example_ties. repeat constructor; discriminate. Defined.

Lemma example_unit : Forall (fun x => 0 <= x <= 1) example_ties.
Proof. unfold example_ties. repeat constructor; discriminate. Defined.

Lemma fdr_at_most_one_witness :
  exists q,
    PAdjust.p_adjust unit no_splrep no_splev (PAdjust.PyList example_ties)
      "fdr" None =
      Ok {| PAdjust.value := {| shape := [length example_ties]; data := q |}; PAdjust.stdout := [] |} /\
    Forall (fun u => u <= 1) q.
Proof.
  exact (fdr_at_most_one unit no_splrep no_splev _ None
           (proj1 example_small) (proj2 example_small)).
Defined.

Lemma fdr_preserves_order_witness :
  exists q,
    PAdjust.p_adjust unit no_splrep no_splev (PAdjust.PyList example_ties)
      "fdr" None =
      Ok {| PAdjust.value := {| shape := [length example_ties]; data := q |}; PAdjust.stdout := [] |} /\
    forall i j x y u v,
      example_ties !! i = Some x -> example_ties !! j = Some y ->
      q !! i = Some u -> q !! j = Some v -> x < y -> u <= v.
Proof.
  exact (fdr_preserves_order unit no_splrep no_splev _ None
           (proj1 example_small) (proj2 example_small)).
Defined.

Lemma fdr_ties_equal_witness :
  exists q,
    PAdjust.p_adjust unit no_splrep no_splev (PAdjust.PyList example_ties)
      "fdr" None =
      Ok {| PAdjust.value := {| shape := [length example_ties]; data := q |}; PAdjust.stdout := [] |} /\
    forall i j x y u v,
      example_ties !! i = Some x -> example_ties !! j = Some y ->
      q !! i = Some u -> q !! j = Some v -> x == y -> u == v.
Proof.
  exact (fdr_ties_equal unit no_splrep no_splev _ None
           (proj1 example_small) (proj2 example_small) example_nonneg).
Defined.

Lemma fdr_at_least_p_witness :
  exists q,
    PAdjust.p_adjust unit no_splrep no_splev (PAdjust.PyList example_ties)
      "fdr" None =
      Ok {| PAdjust.value := {| shape := [length example_ties]; data := q |}; PAdjust.stdout := [] |} /\
    Forall2 Qle example_ties q.
Proof.
  apply (fdr_at_least_p unit no_splrep no_splev _ None
           (proj1 example_small) (proj2 example_small) example_unit).
  discriminate.
Defined.

Lemma fdr_below_bonferroni_witness :
  exists q b,
    PAdjust.p_adjust unit no_splrep no_splev (PAdjust.PyList example_ties)
      "fdr" None =
      Ok {| PAdjust.value := {| shape := [length example_ties]; data := q |}; PAdjust.stdout := [] |} /\
    PAdjust.p_adjust unit no_splrep no_splev (PAdjust.PyList example_ties)
      "bonferroni" None =
      Ok {| PAdjust.value := {| shape := [length example_ties]; data := b |}; PAdjust.stdout := [] |} /\
    Forall2 Qle q b.
Proof.
  exact (fdr_below_bonferroni unit no_splrep no_splev _ None
           (proj1 example_small) (proj2 example_small) example_nonneg).
Defined.

Lemma method_spelling_witness :
  PAdjust.p_adjust unit no_splrep no_splev (PAdjust.PyList example_ties) "Bh" None =
  PAdjust.p_adjust unit no_splrep no_splev (PAdjust.PyList example_ties) "fdr" None.
Proof.
  exact (proj2 (method_spelling unit no_splrep no_splev
                  (PAdjust.PyList example_ties) None "Bh" "BH") eq_refl).
Defined.

Lemma p_adjust_prints_nothing_witness :
  exists r,
    PAdjust.p_adjust unit no_splrep no_splev (PAdjust.PyList [0.03; 0.2; 0.4])
      "fdr" None = Ok r /\
    PAdjust.stdout r = [].
Proof.
  eexists. split; [apply fdr_example_run|].
  exact (p_adjust_prints_nothing unit no_splrep no_splev
           (PAdjust.PyList [0.03; 0.2; 0.4]) "fdr" None _ I
           (fdr_example_run unit no_splrep no_splev)).
Defined.

Lemma p_value_in_unit_interval_witness :
  exists r,
    RateRatio.test uniform_quantile [0%Z; 1%Z] [1; 1] 1 "less" 0.95 = Ok r /\
    0 <= RateRatio.p_value r <= 1.
Proof.
  exact (p_value_in_unit_interval uniform_quantile 0 1 1 1 1 "less" 0.95
           example_valid_less eq_refl).
Defined.

Lemma one_sided_p_values_sum_witness :
  exists r r',
    RateRatio.test uniform_quantile [2%Z; 9%Z] [17877; 16660] 1 "less" 0.95 = Ok r /\
    RateRatio.test uniform_quantile [2%Z; 9%Z] [17877; 16660] 1 "greater" 0.95 = Ok r' /\
    1 <= RateRatio.p_value r + RateRatio.p_value r'.
Proof.
  destruct (one_sided_p_values_sum uniform_quantile 2 9 17877 16660 1 0.95 0.95)
    as (r & r' & Hr & Hr' & _ & Hsum); try reflexivity; try discriminate;
    try (split; reflexivity).
  exists r, r'. auto.
Defined.

Lemma conf_level_reaches_interval_only_witness :
  exists r r',
    RateRatio.test uniform_quantile [0%Z; 1%Z] [1; 1] 1 "less" 0.95 = Ok r /\
    RateRatio.test uniform_quantile [0%Z; 1%Z] [1; 1] 1 "less" 0.5 = Ok r' /\
    RateRatio.p_value r = RateRatio.p_value r' /\
    RateRatio.estimate r = RateRatio.estimate r'.
Proof.
  destruct (conf_level_reaches_interval_only uniform_quantile uniform_quantile
              0 1 1 1 1 "less" 0.95 0.5 example_valid_less)
    as (r & r' & lo & hi & lo' & hi' & Hr & Hr' & Hp & He & _);
    [split; reflexivity|reflexivity|].
  exists r, r'. auto.
Defined.

Lemma zero_first_count_witness :
  exists r lo hi,
    RateRatio.test uniform_quantile [0%Z; 1%Z] [1; 1] 1 "less" 0.95 = Ok r /\
    RateRatio.conf_int r = [lo; hi; RateRatio.Fin 0.95] /\
    RateRatio.xfloat_eq lo (RateRatio.Fin 0).
Proof.
  destruct (zero_first_count uniform_quantile 1 1 1 1 "less" 0.95
              example_valid_less eq_refl)
    as (r & lo & hi & ratio & r1 & r2 & Hr & Hci & Hlo & _).
  exists r, lo, hi. auto.
Defined.

Lemma two_sided_p_value_symmetry_witness :
  exists r r',
    RateRatio.test uniform_quantile [2%Z; 9%Z] [17877; 16660] 2 "two.sided" 0.95 = Ok r /\
    RateRatio.test uniform_quantile [9%Z; 2%Z] [16660; 17877] (1 / 2) "two.sided" 0.95
      = Ok r' /\
    RateRatio.p_value r == RateRatio.p_value r'.
Proof.
  apply (two_sided_p_value_symmetry uniform_quantile);
    try reflexivity; split; reflexivity.
Defined.

Lemma htest_prints_once_filled_witness :
  exists r text,
    RateRatio.test uniform_quantile [0%Z; 1%Z] [1; 1] 1 "less" 0.95 = Ok r /\
    htest_repr no_str no_data_name r = Ok text /\
    htest_str no_str no_data_name r = Ok text.
Proof.
  exact (proj1 (htest_prints_once_filled uniform_quantile no_str no_data_name)
           0%Z 1%Z 1 1 1 "less" 0.95 example_valid_less eq_refl).
Defined.

Lemma count_not_above_zero_is_default_witness :
  PAdjust.p_adjust unit no_splrep no_splev (PAdjust.PyList example_ties)
    "bonferroni" (Some 0) =
  PAdjust.p_adjust unit no_splrep no_splev (PAdjust.PyList example_ties)
    "bonferroni" None.
Proof.
  apply (count_not_above_zero_is_default unit no_splrep no_splev). discriminate.
Defined.
